(** * Smooth pursuit eye movements: the model of example_2_eye_movements.ipynb

    The notebook describes a network in the equation language of the Brian 2
    simulator: an eye (one unit, five coupled differential equations), two
    motoneurons, twenty retinal neurons and two families of synapses.  This
    file embeds that description as explicit state-transition functions.

    Numbers are the real numbers of the Standard Library (the notebook
    computes in double precision; the properties below are about the model
    the equations denote).  Quantities with a dimension are expressed in
    seconds.  One call of [step] is one tick of the simulation clock, with the
    simulator's schedule written out slot by slot:
    start (state monitor), groups (state updaters), thresholds (spike
    detection and spike monitors), synapses (on_pre statements), resets.
    The state updaters of a tick all read the state the tick starts in; in
    particular the linked variables x_eye and x_object of the retina are the
    values of the eye before its own Euler step. *)

From Stdlib Require Import Reals Lra Lia List ZArith Bool Sorted.
Import ListNotations.

Open Scope R_scope.

(** ** Units and constants of the notebook *)

Definition second : R := 1.
Definition ms : R := / 1000.

(** alpha = (1/(50*ms))**2, beta = 1/(50*ms) *)
Definition alpha : R := (1 / (50 * ms)) ^ 2.
Definition beta : R := 1 / (50 * ms).
Definition tau_muscle : R := 20 * ms.
Definition tau_object : R := 500 * ms.

(** taum = 20*ms; refractory = 5*ms, threshold 'v>1', reset 'v=0' *)
Definition taum : R := 20 * ms.
Definition refractory : R := 5 * ms.

(** N = 20; width = 2./N; gain = 4. *)
Definition N : nat := 20.
Definition width : R := 2 / INR N.
Definition gain : R := 4.

(** The notebook never sets the clock: the simulator's default step is
    0.1 ms, and [timestep d] is the number of ticks in a duration [d] that is
    a whole number of ticks (timestep(5*ms, dt) = 50). *)
Definition dt : R := / 10000.
Definition refractory_steps : Z := 50.

(** Value of [lastspike] before any spike, in ticks (-1e4 second). *)
Definition never_spiked : Z := (-100000000)%Z.

(** Boolean comparison [a > b] on the reals, as used by thresholds and by the
    connection rule. *)
Definition Rgtb (a b : R) : bool := if Rlt_dec b a then true else false.

(** ** State of the three neuron groups *)

Module Eye.
(** eqs_eye: one unit with the variables x, velocity, x0, x_object, noise. *)
Record t : Type := mk
  { x : R; velocity : R; x0 : R; x_object : R; noise : R }.
End Eye.

Module Moto.
(** motoneurons: v for each of the two units, plus the two variables the
    simulator adds to a group declared with [refractory]. *)
Record t : Type := mk
  { v : list R; lastspike : list Z; not_refractory : list bool }.
End Moto.

Module Retina.
(** eqs_retina: v, gs and the constant x_neuron of each of the N units.
    x_object and x_eye are linked variables: they are not stored here but
    read from the eye, and I is a subexpression. *)
Record t : Type := mk
  { v : list R; gs : list R; x_neuron : list R }.
End Retina.

(** A synapse: presynaptic index, postsynaptic index and its variable w. *)
Record Synapse : Type := mkSynapse
  { pre : nat; post : nat; w : R }.

(** What the three monitors have recorded: [M] holds (x, x0, x_object) of
    the eye for every tick, the spike monitors hold (tick, index) pairs. *)
Record Monitors : Type := mkMonitors
  { M : list (R * R * R);
    S_retina : list (nat * nat);
    S_motoneurons : list (nat * nat) }.

Record Network : Type := mkNetwork
  { clock : nat;
    eye : Eye.t;
    motoneurons : Moto.t;
    retina : Retina.t;
    motosynapses : list Synapse;
    sensorimotor_synapses : list Synapse;
    monitors : Monitors }.

(** The random source of a run: [rand i] is the i-th uniform draw of
    retina.v = 'rand()', [randn n] the standard normal draw behind xi at
    tick n. *)
Record RandomSource : Type := mkRandom
  { rand : nat -> R; randn : nat -> R }.

(** ** Construction of the network *)

(** retina.x_neuron = '-1.0 + 2.0*i/(N-1)' *)
Definition x_neuron_of (i : nat) : R := -1 + 2 * INR i / INR (N - 1).

Definition eye_init : Eye.t := Eye.mk 0 0 0 0 0.

Definition motoneurons_init : Moto.t :=
  Moto.mk (repeat 0 2) (repeat never_spiked 2) (repeat true 2).

Definition retina_init (rs : RandomSource) : Retina.t :=
  Retina.mk (map (rand rs) (seq 0 N)) (repeat 0 N) (map x_neuron_of (seq 0 N)).

(** motosynapses.connect(): every motoneuron to the single eye unit, in the
    order (0,0), (1,0); motosynapses.w = [-0.5, 0.5] by synapse number. *)
Definition motosynapses_connect : list Synapse :=
  flat_map (fun i => map (fun j => mkSynapse i j 0) (seq 0 1)) (seq 0 2).

Definition assign_w (ws : list R) (syns : list Synapse) : list Synapse :=
  map (fun sw => mkSynapse (pre (fst sw)) (post (fst sw)) (snd sw))
      (combine syns ws).

Definition motosynapses_init : list Synapse :=
  assign_w [- (1 / 2); 1 / 2] motosynapses_connect.

(** sensorimotor_synapses.connect(j = 'int(x_neuron_pre > 0)'): one synapse
    per presynaptic index i, to the index the expression gives. *)
Definition target_of (x_neuron_pre : R) : nat :=
  if Rgtb x_neuron_pre 0 then 1%nat else 0%nat.

Definition sensorimotor_connect (r : Retina.t) : list Synapse :=
  map (fun i => mkSynapse i (target_of (nth i (Retina.x_neuron r) 0)) 0)
      (seq 0 N).

(** sensorimotor_synapses.w = '20*abs(x_neuron_pre)/N_pre', where N_pre is
    the size of the presynaptic group. *)
Definition weight_of (N_pre : nat) (x_neuron_pre : R) : R :=
  20 * Rabs x_neuron_pre / INR N_pre.

Definition sensorimotor_assign (r : Retina.t) (syns : list Synapse)
  : list Synapse :=
  map (fun s => mkSynapse (pre s) (post s)
                  (weight_of (length (Retina.v r))
                             (nth (pre s) (Retina.x_neuron r) 0)))
      syns.

Definition sensorimotor_init (r : Retina.t) : list Synapse :=
  sensorimotor_assign r (sensorimotor_connect r).

Definition network_init (rs : RandomSource) : Network :=
  let r := retina_init rs in
  mkNetwork 0 eye_init motoneurons_init r
            motosynapses_init (sensorimotor_init r)
            (mkMonitors [] [] []).

(** ** One tick of the clock *)

(** eye, method='euler': every right-hand side is evaluated on the values at
    the start of the tick.  The stochastic term tau_object**-0.5*xi
    contributes tau_object**-0.5 * sqrt(dt) * z for a standard normal z. *)
Definition eye_stateupdate (z : R) (e : Eye.t) : Eye.t :=
  Eye.mk
    (Eye.x e + dt * Eye.velocity e)
    (Eye.velocity e
     + dt * (alpha * (Eye.x0 e - Eye.x e) - beta * Eye.velocity e))
    (Eye.x0 e + dt * (- Eye.x0 e / tau_muscle))
    (Eye.x_object e + dt * ((Eye.noise e - Eye.x_object e) / tau_object))
    (Eye.noise e + dt * (- Eye.noise e / tau_object)
     + / sqrt tau_object * sqrt dt * z).

(** motoneurons, method='exact' on dv/dt = -v/taum, preceded by the
    refractoriness bookkeeping
    not_refractory = timestep(t - lastspike, dt) >= timestep(refractory, dt).
    The equation carries no (unless refractory) flag, so v is integrated
    whether or not the unit is refractory. *)
Definition moto_stateupdate (now : nat) (m : Moto.t) : Moto.t :=
  Moto.mk
    (map (fun vi => vi * exp (- dt / taum)) (Moto.v m))
    (Moto.lastspike m)
    (map (fun ls => (refractory_steps <=? Z.of_nat now - ls)%Z)
         (Moto.lastspike m)).

(** I = gain*exp(-((x_object-x_eye-x_neuron)/width)**2) *)
Definition I_drive (x_object x_eye x_neuron : R) : R :=
  gain * exp (- ((x_object - x_eye - x_neuron) / width) ^ 2).

(** retina, method='exact' on dv/dt = (I-(1+gs)*v)/taum with I and gs held
    over the tick: the solution of the linear equation after dt. *)
Definition retina_exact (I gs v : R) : R :=
  I / (1 + gs) + (v - I / (1 + gs)) * exp (- (1 + gs) * dt / taum).

Definition retina_stateupdate (e : Eye.t) (r : Retina.t) : Retina.t :=
  Retina.mk
    (map (fun i =>
            retina_exact
              (I_drive (Eye.x_object e) (Eye.x e)
                       (nth i (Retina.x_neuron r) 0))
              (nth i (Retina.gs r) 0)
              (nth i (Retina.v r) 0))
         (seq 0 (length (Retina.v r))))
    (Retina.gs r)
    (Retina.x_neuron r).

(** Thresholds.  The result is the list of indices that spike this tick.
    For the motoneurons the condition is 'v>1' and not_refractory. *)
Definition moto_threshold (m : Moto.t) : list nat :=
  filter (fun i => Rgtb (nth i (Moto.v m) 0) 1
                   && nth i (Moto.not_refractory m) false)
         (seq 0 (length (Moto.v m))).

Definition retina_threshold (r : Retina.t) : list nat :=
  filter (fun i => Rgtb (nth i (Retina.v r) 0) 1)
         (seq 0 (length (Retina.v r))).

Definition spiked (spikes : list nat) (i : nat) : bool :=
  existsb (Nat.eqb i) spikes.

(** A spiking motoneuron gets lastspike = t and not_refractory = False. *)
Definition moto_mark (now : nat) (spikes : list nat) (m : Moto.t) : Moto.t :=
  Moto.mk
    (Moto.v m)
    (map (fun i => if spiked spikes i then Z.of_nat now
                   else nth i (Moto.lastspike m) never_spiked)
         (seq 0 (length (Moto.lastspike m))))
    (map (fun i => if spiked spikes i then false
                   else nth i (Moto.not_refractory m) false)
         (seq 0 (length (Moto.not_refractory m)))).

(** Array update a[j] = y (nothing is written out of range). *)
Fixpoint set_nth (j : nat) (y : R) (a : list R) : list R :=
  match a, j with
  | [], _ => []
  | _ :: a', O => y :: a'
  | a0 :: a', S j' => a0 :: set_nth j' y a'
  end.

(** motosynapses, on_pre = 'x0+=w': for every synapse whose presynaptic
    motoneuron spiked, add w to x0 of the eye. *)
Definition motosynapses_pre (spikes : list nat) (syns : list Synapse)
  (e : Eye.t) : Eye.t :=
  fold_left
    (fun e' s =>
       if spiked spikes (pre s)
       then Eye.mk (Eye.x e') (Eye.velocity e') (Eye.x0 e' + w s)
                   (Eye.x_object e') (Eye.noise e')
       else e')
    syns e.

(** sensorimotor_synapses, on_pre = 'v+=w': for every synapse whose
    presynaptic retinal unit spiked, add w to v of its motoneuron. *)
Definition add_to_v (spikes : list nat) (syns : list Synapse) (v : list R)
  : list R :=
  fold_left
    (fun v' s =>
       if spiked spikes (pre s)
       then set_nth (post s) (nth (post s) v' 0 + w s) v'
       else v')
    syns v.

Definition sensorimotor_pre (spikes : list nat) (syns : list Synapse)
  (m : Moto.t) : Moto.t :=
  Moto.mk (add_to_v spikes syns (Moto.v m))
          (Moto.lastspike m) (Moto.not_refractory m).

(** reset = 'v=0' on the units that spiked. *)
Definition reset_v (spikes : list nat) (v : list R) : list R :=
  map (fun i => if spiked spikes i then 0 else nth i v 0)
      (seq 0 (length v)).

Definition moto_reset (spikes : list nat) (m : Moto.t) : Moto.t :=
  Moto.mk (reset_v spikes (Moto.v m))
          (Moto.lastspike m) (Moto.not_refractory m).

Definition retina_reset (spikes : list nat) (r : Retina.t) : Retina.t :=
  Retina.mk (reset_v spikes (Retina.v r)) (Retina.gs r) (Retina.x_neuron r).

(** The spikes of the motoneurons and of the retina at the tick that starts
    in state [s]. *)
Definition moto_spikes (s : Network) : list nat :=
  moto_threshold (moto_stateupdate (clock s) (motoneurons s)).

Definition retina_spikes (s : Network) : list nat :=
  retina_threshold (retina_stateupdate (eye s) (retina s)).

Definition record (s : Network) (mspikes rspikes : list nat) : Monitors :=
  let e := eye s in
  let mon := monitors s in
  mkMonitors
    (M mon ++ [(Eye.x e, Eye.x0 e, Eye.x_object e)])
    (S_retina mon ++ map (fun i => (clock s, i)) rspikes)
    (S_motoneurons mon ++ map (fun i => (clock s, i)) mspikes).

Definition step (z : R) (s : Network) : Network :=
  let now := clock s in
  (* groups *)
  let m1 := moto_stateupdate now (motoneurons s) in
  let r1 := retina_stateupdate (eye s) (retina s) in
  let e1 := eye_stateupdate z (eye s) in
  (* thresholds *)
  let mspikes := moto_threshold m1 in
  let rspikes := retina_threshold r1 in
  let m2 := moto_mark now mspikes m1 in
  (* synapses *)
  let e2 := motosynapses_pre mspikes (motosynapses s) e1 in
  let m3 := sensorimotor_pre rspikes (sensorimotor_synapses s) m2 in
  (* resets *)
  let m4 := moto_reset mspikes m3 in
  let r2 := retina_reset rspikes r1 in
  mkNetwork (S now) e2 m4 r2
            (motosynapses s) (sensorimotor_synapses s)
            (record s mspikes rspikes).

(** run: [run_steps rs n] is the network after n ticks. *)
Fixpoint run_steps (rs : RandomSource) (n : nat) : Network :=
  match n with
  | O => network_init rs
  | S n' => step (randn rs n') (run_steps rs n')
  end.

(** run(10*second): 100000 ticks of 0.1 ms. *)
Definition run (rs : RandomSource) : Network :=
  run_steps rs (Z.to_nat 100000).

(** Accessors used in the statements. *)
Definition moto_v (s : Network) (j : nat) : R :=
  nth j (Moto.v (motoneurons s)) 0.

Definition retina_v (s : Network) (k : nat) : R :=
  nth k (Retina.v (retina s)) 0.

Definition retina_gs (s : Network) (k : nat) : R :=
  nth k (Retina.gs (retina s)) 0.

(** ** Definitions used by the statements and the proofs *)

(** Total weight delivered to postsynaptic index [j] by the synapses whose
    presynaptic unit is in [spikes]. *)
Definition syn_input (spikes : list nat) (syns : list Synapse) (j : nat) : R :=
  fold_right
    (fun s acc =>
       (if spiked spikes (pre s) && (post s =? j)%nat then w s else 0) + acc)
    0 syns.

(** The factor by which a potential decays over one tick. *)
Definition decay : R := exp (- dt / taum).

(** The sensorimotor table that construction produces (see
    [sensorimotor_init_table]). *)
Definition sensorimotor_table : list Synapse :=
  map (fun i => mkSynapse i (target_of (x_neuron_of i))
                  (weight_of N (x_neuron_of i)))
      (seq 0 N).

(** Tick of the last spike of motoneuron [j]. *)
Definition moto_lastspike (s : Network) (j : nat) : Z :=
  nth j (Moto.lastspike (motoneurons s)) never_spiked.

(** Shape of a network state: array sizes, the constant arrays and the two
    synapse tables.  Every state of a run has it. *)
Record well_formed (s : Network) : Prop := mk_wf
  { wf_mv : length (Moto.v (motoneurons s)) = 2%nat;
    wf_ls : length (Moto.lastspike (motoneurons s)) = 2%nat;
    wf_nr : length (Moto.not_refractory (motoneurons s)) = 2%nat;
    wf_rv : length (Retina.v (retina s)) = N;
    wf_gs : Retina.gs (retina s) = repeat 0 N;
    wf_xn : Retina.x_neuron (retina s) = map x_neuron_of (seq 0 N);
    wf_ms : motosynapses s = motosynapses_init;
    wf_ss : sensorimotor_synapses s = sensorimotor_table }.

(** The drive of retinal unit k at the tick that starts in state [s], and
    its potential after the state update of that tick (before threshold and
    reset). *)
Definition drive (s : Network) (k : nat) : R :=
  I_drive (Eye.x_object (eye s)) (Eye.x (eye s)) (x_neuron_of k).

Definition retina_v_updated (s : Network) (k : nat) : R :=
  drive s k + (retina_v s k - drive s k) * decay.

(** The Euler step of dx0/dt = -x0/tau_muscle, and the total weight the
    motosynapses add to x0 for a list of spiking motoneurons. *)
Definition x0_relaxed (e : Eye.t) : R :=
  Eye.x0 e + dt * (- Eye.x0 e / tau_muscle).

Definition muscle_input (spikes : list nat) : R :=
  (if spiked spikes 0 then - (1 / 2) else 0)
  + (if spiked spikes 1 then 1 / 2 else 0).

(** The synapses of a table that leave presynaptic unit [k]. *)
Definition synapses_from (k : nat) (syns : list Synapse) : list Synapse :=
  filter (fun s => (pre s =? k)%nat) syns.

(** A random source with every draw equal to 0, for concrete instances. *)
Definition zero_source : RandomSource := mkRandom (fun _ => 0) (fun _ => 0).

(** The weight of the motosynapse leaving motoneuron [i]. *)
Definition motosynapse_w (s : Network) (i : nat) : R :=
  nth i (map w (motosynapses s)) 0.

(** Sum of a list of reals. *)
Definition sum_list (l : list R) : R := fold_right Rplus 0 l.

(** A source whose only nonzero draw is rand 10 = 0.999: at the first tick
    retinal unit 10 spikes and no other unit does. *)
Definition source_10 : RandomSource :=
  mkRandom (fun i => if (i =? 10)%nat then 999 / 1000 else 0) (fun _ => 0).

(** Drive of unit k when the target and the eye are both at 0. *)
Definition drive_at_rest (k : nat) : R := I_drive 0 0 (x_neuron_of k).

(** The retinal unit in the hemifield of motoneuron j that is nearest to the
    centre: unit 9 for the left motoneuron, unit 10 for the right one. *)
Definition central_unit (j : nat) : nat :=
  match j with O => 9%nat | _ => 10%nat end.

(** Invariant of the quiescent run: the eye is at rest, every retinal
    potential is in [0, 1], the units other than 9 and 10 stay below their
    (subthreshold) drive, and each motoneuron potential m satisfies
    m + r/19 <= I/19 for the potential r and drive I of its central unit. *)
Record quiescent (s : Network) : Prop := mk_quiescent
  { q_wf : well_formed s;
    q_eye : eye s = Eye.mk 0 0 0 0 0;
    q_retina : forall k : nat, (k < N)%nat -> 0 <= retina_v s k <= 1;
    q_far : forall k : nat, (k < N)%nat -> k <> 9%nat -> k <> 10%nat ->
              retina_v s k <= drive_at_rest k;
    q_moto : forall j : nat, (j < 2)%nat ->
               0 <= moto_v s j /\
               moto_v s j + / 19 * retina_v s (central_unit j)
               <= / 19 * drive_at_rest (central_unit j) }.

(** The triple the state monitor records at the start of a tick. *)
Definition eye_sample (s : Network) : R * R * R :=
  (Eye.x (eye s), Eye.x0 (eye s), Eye.x_object (eye s)).

(** A source that agrees with [zero_source] on every draw a run consumes
    and differs on the draws it does not. *)
Definition zero_then_one : RandomSource :=
  mkRandom (fun i => if (i <? N)%nat then 0 else 1)
           (fun m => if (m <? Z.to_nat 100000)%nat then 0 else 1).

(** Contribution of retinal unit [k] to the input of motoneuron [j]. *)
Definition syn_term (spikes : list nat) (j k : nat) : R :=
  if spiked spikes k && (target_of (x_neuron_of k) =? j)%nat
  then weight_of N (x_neuron_of k) else 0.

(** The retinal units that start near threshold. *)
Definition hot (i : nat) : bool :=
  (i =? 10)%nat || (i =? 16)%nat || (i =? 17)%nat || (i =? 19)%nat.

(** Values of noise and x_object, tick by tick: the target jumps to
    position 1 (unit 19) for ticks 2 and 3, then to 14/19, midway between
    units 16 and 17. *)
Definition noise_plan (t : nat) : R :=
  match t with
  | O => 0
  | S O => 5000
  | S (S O) => 1
  | S (S (S O)) => 1 - 25000 / 19
  | _ => 14 / 19
  end.

Definition object_plan (t : nat) : R :=
  match t with
  | O | S O => 0
  | S (S O) | S (S (S O)) => 1
  | _ => 14 / 19
  end.

(** The random source of the run: uniform draws 0.999 for the hot units and
    0 for the others, and the normal draws that make noise follow
    [noise_plan]. *)
Definition steered_source : RandomSource :=
  mkRandom
    (fun i => if hot i then 999 / 1000 else 0)
    (fun t => (noise_plan (S t)
               - (noise_plan t + dt * (- noise_plan t / tau_object)))
              / (/ sqrt tau_object * sqrt dt)).

(** The state of that run after t ticks. *)
Definition pursuit (t : nat) : Network := run_steps steered_source t.

(** Lower bounds on the potential of the right motoneuron during the first
    ticks. *)
Definition m1_lo (t : nat) : R :=
  match t with
  | O => 0
  | S O => / 19
  | S (S O) => / 20
  | _ => 1 + / 25
  end.

(** The first phase (ticks 0 to 3): the eye is at rest, no motoneuron has
    spiked, unit 10 spikes at tick 0 and unit 19 at tick 2. *)
Record phase1 (t : nat) : Prop := mk_phase1
  { p1_x : Eye.x (eye (pursuit t)) = 0;
    p1_vel : Eye.velocity (eye (pursuit t)) = 0;
    p1_x0 : Eye.x0 (eye (pursuit t)) = 0;
    p1_ls : moto_lastspike (pursuit t) 1 = never_spiked;
    p1_hi : (t <= 2)%nat -> moto_v (pursuit t) 1 <= / 19;
    p1_lo : m1_lo t <= moto_v (pursuit t) 1;
    p1_10 : match t with
            | O => retina_v (pursuit 0) 10 = 999 / 1000
            | _ => retina_v (pursuit 1) 10 = 0
            end;
    p1_19 : (t <= 2)%nat ->
            999 / 1000 * (1 - INR t / 200) <= retina_v (pursuit t) 19;
    p1_19_reset : (3 <= t)%nat -> retina_v (pursuit 3) 19 = 0;
    p1_16 : 999 / 1000 * (1 - INR t / 200) <= retina_v (pursuit t) 16;
    p1_17 : 999 / 1000 * (1 - INR t / 200) <= retina_v (pursuit t) 17 }.

(** The second phase (ticks 4 to 8): the target rests midway between units
    16 and 17 while the right motoneuron is refractory.  [b16] and [b17]
    tell whether unit 16 and unit 17 have spiked since tick 4. *)
Record phase2 (u : nat) (b16 b17 : bool) : Prop := mk_phase2
  { p2_x : - INR u / 1000 <= Eye.x (eye (pursuit (4 + u))) <= INR u / 1000;
    p2_vel : - INR u / 40 <= Eye.velocity (eye (pursuit (4 + u)))
             <= INR u / 40;
    p2_x0 : 0 <= Eye.x0 (eye (pursuit (4 + u))) <= 1 / 2;
    p2_16 : b16 = false ->
            979 / 1000 + 69 / 10000 * INR u <= retina_v (pursuit (4 + u)) 16;
    p2_17 : b17 = false ->
            979 / 1000 + 69 / 10000 * INR u <= retina_v (pursuit (4 + u)) 17;
    p2_m1 : (1 - INR u / 200)
            * ((if b16 then 13 / 19 else 0) + (if b17 then 15 / 19 else 0))
            <= moto_v (pursuit (4 + u)) 1 }.

(** ** Derived data of a spike monitor *)

Module SpikeMonitor.
(** S.count[i]: the number of recorded spikes of unit i. *)
Definition count (mon : list (nat * nat)) (i : nat) : nat :=
  length (filter (fun p => (snd p =? i)%nat) mon).
(** S.spike_trains()[i]: the recorded spike times of unit i (in ticks), in
    the order of recording. *)
Definition spike_trains (mon : list (nat * nat)) (i : nat) : list nat :=
  map fst (filter (fun p => (snd p =? i)%nat) mon).
End SpikeMonitor.

(** The ticks before [n] at which a condition on the tick holds. *)
Definition ticks_where (f : nat -> bool) (n : nat) : list nat :=
  filter f (seq 0 n).

(** Ticks since the last spike of motoneuron [j], capped at the 50 ticks of
    the refractory period. *)
Definition refractory_age (s : Network) (j : nat) : Z :=
  Z.min refractory_steps (Z.of_nat (clock s) - moto_lastspike s j).

(** Energy of the eye relative to the centre, with the velocity scaled by
    the friction parameter: x^2 + x*w + w^2 for w = velocity/20.  Without
    muscle bias it decays along the eye equation. *)
Definition eye_energy (e : Eye.t) : R :=
  Eye.x e ^ 2 + Eye.x e * (Eye.velocity e / 20) + (Eye.velocity e / 20) ^ 2.

(** Weight with which a value [r] attached to retinal unit [k] counts for
    motoneuron [j]: the weight of the synapse of k if it goes to j, else 0;
    and the potentials of the retina weighted in this way. *)
Definition side_term (j k : nat) (r : R) : R :=
  if (target_of (x_neuron_of k) =? j)%nat
  then weight_of N (x_neuron_of k) * r else 0.

Definition side_sum (j : nat) (r : nat -> R) : R :=
  sum_list (map (fun k => side_term j k (r k)) (seq 0 N)).

(** * Properties *)

(** ** Arrays: indexing lemmas *)

Lemma nth_map_seq {A : Type} (f : nat -> A) (n k : nat) (d : A) :
  (k < n)%nat -> nth k (map f (seq 0 n)) d = f k.
Proof.
  intros Hk.
  rewrite (nth_indep _ d (f 0%nat)) by (rewrite length_map, length_seq; exact Hk).
  rewrite (map_nth f (seq 0 n) 0%nat k).
  rewrite seq_nth by exact Hk. reflexivity.
Qed.

Lemma length_set_nth (j : nat) (y : R) (a : list R) :
  length (set_nth j y a) = length a.
Proof.
  revert j; induction a as [|a0 a IH]; intros [|j]; simpl; auto.
Qed.

Lemma nth_set_nth_same (j : nat) (y : R) (a : list R) :
  (j < length a)%nat -> nth j (set_nth j y a) 0 = y.
Proof.
  revert j; induction a as [|a0 a IH]; intros [|j] Hj; simpl in *; try lia; auto.
  apply IH; lia.
Qed.

Lemma nth_set_nth_other (i j : nat) (y : R) (a : list R) :
  i <> j -> nth i (set_nth j y a) 0 = nth i a 0.
Proof.
  revert i j; induction a as [|a0 a IH]; intros [|i] [|j] Hij; simpl;
    try reflexivity; try congruence.
  apply IH; congruence.
Qed.

Lemma spiked_filter (p : nat -> bool) (n i : nat) :
  spiked (filter p (seq 0 n)) i = (i <? n)%nat && p i.
Proof.
  unfold spiked.
  destruct ((i <? n)%nat && p i) eqn:E.
  - apply andb_true_iff in E as [Hi Hp]. apply Nat.ltb_lt in Hi.
    apply existsb_exists. exists i. split.
    + apply filter_In. split; [apply in_seq; lia | exact Hp].
    + apply Nat.eqb_refl.
  - apply not_true_is_false. intros H.
    apply existsb_exists in H as (k & Hk & Hik).
    apply Nat.eqb_eq in Hik; subst k.
    apply filter_In in Hk as [Hin Hp]. apply in_seq in Hin.
    assert (Hlt : (i <? n)%nat = true) by (apply Nat.ltb_lt; lia).
    rewrite Hlt, Hp in E. discriminate.
Qed.

Lemma Rgtb_true (a b : R) : Rgtb a b = true <-> b < a.
Proof.
  unfold Rgtb. destruct (Rlt_dec b a); split; intros; auto; discriminate.
Qed.

Lemma Rgtb_false (a b : R) : Rgtb a b = false <-> a <= b.
Proof.
  unfold Rgtb. destruct (Rlt_dec b a); split; intros; auto; try discriminate; lra.
Qed.

Lemma length_add_to_v (spikes : list nat) (syns : list Synapse) (v : list R) :
  length (add_to_v spikes syns v) = length v.
Proof.
  unfold add_to_v. revert v.
  induction syns as [|s syns IH]; intros v; simpl; [reflexivity|].
  rewrite IH. destruct (spiked spikes (pre s)); [apply length_set_nth | reflexivity].
Qed.

Lemma nth_add_to_v (spikes : list nat) (syns : list Synapse) (v : list R)
  (j : nat) :
  (j < length v)%nat ->
  nth j (add_to_v spikes syns v) 0 = nth j v 0 + syn_input spikes syns j.
Proof.
  unfold add_to_v. revert v.
  induction syns as [|s syns IH]; intros v Hj; simpl; [lra|].
  destruct (spiked spikes (pre s)) eqn:Hs; simpl.
  - rewrite IH by (rewrite length_set_nth; exact Hj).
    destruct (Nat.eqb_spec (post s) j) as [->|Hne].
    + rewrite nth_set_nth_same by exact Hj. lra.
    + rewrite nth_set_nth_other by congruence. lra.
  - rewrite IH by exact Hj. lra.
Qed.

(** ** Constants, evaluated *)

Lemma N_pred_INR : INR (N - 1) = 19.
Proof. unfold N. simpl. lra. Qed.

Lemma N_INR : INR N = 20.
Proof. unfold N. simpl. lra. Qed.

Lemma width_val : width = / 10.
Proof. unfold width. rewrite N_INR. lra. Qed.

Lemma dt_over_taum : dt / taum = / 200.
Proof. unfold dt, taum, ms. lra. Qed.

Lemma dt_over_tau_object : dt / tau_object = / 5000.
Proof. unfold dt, tau_object, ms. lra. Qed.

Lemma decay_bounds : 199 / 200 <= decay /\ decay <= 200 / 201.
Proof.
  unfold decay.
  replace (- dt / taum) with (- / 200) by (rewrite <- dt_over_taum; lra).
  split.
  - pose proof (exp_ineq1_le (- / 200)). lra.
  - rewrite exp_Ropp.
    pose proof (exp_ineq1_le (/ 200)) as H.
    assert (Hpos : 0 < exp (/ 200)) by apply exp_pos.
    apply (Rmult_le_reg_r (exp (/ 200))); [exact Hpos|].
    rewrite Rinv_l by lra. lra.
Qed.

Lemma decay_pos : 0 < decay.
Proof. apply exp_pos. Qed.

Lemma x_neuron_of_val (k : nat) : x_neuron_of k = (2 * INR k - 19) / 19.
Proof. unfold x_neuron_of. rewrite N_pred_INR. lra. Qed.

Lemma x_neuron_of_neg (k : nat) : (k <= 9)%nat -> x_neuron_of k < 0.
Proof.
  intros Hk. rewrite x_neuron_of_val.
  apply le_INR in Hk. replace (INR 9) with 9 in Hk by (simpl; lra). lra.
Qed.

Lemma x_neuron_of_pos (k : nat) : (10 <= k)%nat -> 0 < x_neuron_of k.
Proof.
  intros Hk. rewrite x_neuron_of_val.
  apply le_INR in Hk. replace (INR 10) with 10 in Hk by (simpl; lra). lra.
Qed.

(** No retinal unit sits at position 0: 2k = 19 has no solution. *)
Lemma x_neuron_of_nonzero (k : nat) : x_neuron_of k <> 0.
Proof.
  destruct (Nat.le_gt_cases k 9) as [H|H].
  - pose proof (x_neuron_of_neg k H). lra.
  - pose proof (x_neuron_of_pos k H). lra.
Qed.

Lemma x_neuron_of_range (k : nat) :
  (k < N)%nat -> -1 <= x_neuron_of k <= 1.
Proof.
  intros Hk. rewrite x_neuron_of_val. unfold N in Hk.
  assert (H0 : 0 <= INR k) by apply pos_INR.
  assert (H1 : INR k <= 19).
  { replace 19 with (INR 19) by (simpl; lra). apply le_INR. lia. }
  lra.
Qed.

Lemma target_of_neg (x : R) : x <= 0 -> target_of x = 0%nat.
Proof.
  intros H. unfold target_of.
  replace (Rgtb x 0) with false; [reflexivity|].
  symmetry. apply Rgtb_false. exact H.
Qed.

Lemma target_of_pos (x : R) : 0 < x -> target_of x = 1%nat.
Proof.
  intros H. unfold target_of.
  replace (Rgtb x 0) with true; [reflexivity|].
  symmetry. apply Rgtb_true. exact H.
Qed.

(** The connection rule tests x > 0 strictly: position 0 itself would go to
    index 0. *)
Lemma target_of_zero : target_of 0 = 0%nat.
Proof. apply target_of_neg. lra. Qed.

(** The weight of the synapse of unit k is |2k - 19| / 19. *)
Lemma weight_of_val (k : nat) :
  weight_of N (x_neuron_of k) = Rabs (x_neuron_of k).
Proof. unfold weight_of. rewrite N_INR. lra. Qed.

Lemma weight_of_bounds (k : nat) :
  (k < N)%nat ->
  / 19 <= weight_of N (x_neuron_of k) <= 1.
Proof.
  intros Hk. rewrite weight_of_val.
  pose proof (x_neuron_of_range k Hk) as [Hlo Hhi].
  split; [|apply Rabs_le; lra].
  rewrite x_neuron_of_val in *.
  destruct (Nat.le_gt_cases k 9) as [H|H].
  - apply le_INR in H. replace (INR 9) with 9 in H by (simpl; lra).
    rewrite Rabs_left by lra. lra.
  - apply le_INR in H. replace (INR 10) with 10 in H by (simpl; lra).
    rewrite Rabs_right by lra. lra.
Qed.

(** ** The synapse tables after construction *)

Lemma sensorimotor_init_table (rs : RandomSource) :
  sensorimotor_init (retina_init rs) = sensorimotor_table.
Proof.
  unfold sensorimotor_init, sensorimotor_assign, sensorimotor_connect,
    sensorimotor_table.
  rewrite map_map. apply map_ext_in. intros i Hi. apply in_seq in Hi.
  cbn [pre post Retina.x_neuron Retina.v retina_init].
  rewrite length_map, length_seq.
  rewrite nth_map_seq by lia. reflexivity.
Qed.

Lemma motosynapses_init_val :
  motosynapses_init = [mkSynapse 0 0 (- (1 / 2)); mkSynapse 1 0 (1 / 2)].
Proof. reflexivity. Qed.

(** ** Shape of the state and its preservation *)

Lemma length_reset_v (spikes : list nat) (v : list R) :
  length (reset_v spikes v) = length v.
Proof. unfold reset_v. rewrite length_map, length_seq. reflexivity. Qed.

Lemma well_formed_init (rs : RandomSource) : well_formed (network_init rs).
Proof.
  constructor; cbn [network_init motoneurons retina motosynapses
    sensorimotor_synapses motoneurons_init retina_init Moto.v Moto.lastspike
    Moto.not_refractory Retina.v Retina.gs Retina.x_neuron];
    reflexivity.
Qed.

Lemma well_formed_step (z : R) (s : Network) :
  well_formed s -> well_formed (step z s).
Proof.
  intros [Hmv Hls Hnr Hrv Hgs Hxn Hms Hss].
  constructor; unfold step;
    cbn [motoneurons retina motosynapses sensorimotor_synapses
         moto_reset retina_reset sensorimotor_pre moto_mark moto_stateupdate
         retina_stateupdate
         Moto.v Moto.lastspike Moto.not_refractory
         Retina.v Retina.gs Retina.x_neuron]; auto.
  - rewrite length_reset_v, length_add_to_v, length_map. exact Hmv.
  - rewrite length_map, length_seq. exact Hls.
  - rewrite length_map, length_seq, length_map. exact Hls.
  - rewrite length_reset_v, length_map, length_seq. exact Hrv.
Qed.

Lemma well_formed_run (rs : RandomSource) (n : nat) :
  well_formed (run_steps rs n).
Proof.
  induction n as [|n IH]; simpl.
  - apply well_formed_init.
  - apply well_formed_step. exact IH.
Qed.

Lemma clock_run (rs : RandomSource) (n : nat) : clock (run_steps rs n) = n.
Proof. induction n as [|n IH]; simpl; [reflexivity | now rewrite IH]. Qed.

(** ** The tick, unit by unit *)

(** With gs = 0 the retinal update is the relaxation of v toward I. *)
Lemma retina_exact_gs0 (I v : R) :
  retina_exact I 0 v = I + (v - I) * decay.
Proof.
  unfold retina_exact, decay.
  replace (- (1 + 0) * dt / taum) with (- dt / taum) by lra.
  replace (I / (1 + 0)) with I by lra. reflexivity.
Qed.

Lemma nth_repeat_0 (n k : nat) : nth k (repeat 0 n) 0 = 0.
Proof.
  revert k; induction n as [|n IH]; intros [|k]; simpl; auto.
Qed.

Lemma retina_stateupdate_nth (s : Network) (k : nat) :
  well_formed s -> (k < N)%nat ->
  nth k (Retina.v (retina_stateupdate (eye s) (retina s))) 0
  = retina_v_updated s k.
Proof.
  intros Hwf Hk. unfold retina_stateupdate. cbn [Retina.v].
  rewrite (wf_rv s Hwf), nth_map_seq by exact Hk.
  rewrite (wf_gs s Hwf), (wf_xn s Hwf), nth_repeat_0.
  rewrite nth_map_seq by exact Hk.
  rewrite retina_exact_gs0. reflexivity.
Qed.

Lemma retina_spikes_spec (s : Network) (k : nat) :
  well_formed s ->
  spiked (retina_spikes s) k = (k <? N)%nat && Rgtb (retina_v_updated s k) 1.
Proof.
  intros Hwf. unfold retina_spikes, retina_threshold.
  rewrite spiked_filter.
  replace (length (Retina.v (retina_stateupdate (eye s) (retina s)))) with N.
  2:{ unfold retina_stateupdate. cbn [Retina.v].
      rewrite length_map, length_seq. symmetry. apply (wf_rv s Hwf). }
  destruct (Nat.ltb_spec k N) as [Hk|Hk]; [|reflexivity].
  rewrite retina_stateupdate_nth by assumption. reflexivity.
Qed.

(** [retina_fires Hwf] rewrites the goal [spiked (retina_spikes s) k = b],
    for a unit k < N, into the threshold condition on its updated
    potential. *)
Ltac retina_fires Hwf :=
  rewrite retina_spikes_spec by exact Hwf;
  match goal with
  | |- context [Nat.ltb ?k N] => destruct (Nat.ltb_spec k N); [|lia]
  end;
  cbn [andb].

Lemma retina_v_step (z : R) (s : Network) (k : nat) :
  well_formed s -> (k < N)%nat ->
  retina_v (step z s) k
  = if spiked (retina_spikes s) k then 0 else retina_v_updated s k.
Proof.
  intros Hwf Hk. unfold retina_v, step.
  cbn [retina retina_reset Retina.v]. unfold reset_v.
  assert (Hlen : length (Retina.v (retina_stateupdate (eye s) (retina s))) = N).
  { unfold retina_stateupdate. cbn [Retina.v].
    rewrite length_map, length_seq. apply (wf_rv s Hwf). }
  rewrite Hlen, nth_map_seq by exact Hk.
  fold (retina_spikes s).
  rewrite retina_stateupdate_nth by assumption. reflexivity.
Qed.

Lemma moto_stateupdate_nth (now : nat) (m : Moto.t) (j : nat) :
  nth j (Moto.v (moto_stateupdate now m)) 0 = nth j (Moto.v m) 0 * decay.
Proof.
  unfold moto_stateupdate, decay. cbn [Moto.v].
  destruct (Nat.lt_ge_cases j (length (Moto.v m))) as [Hj|Hj].
  - rewrite (nth_indep _ 0 (0 * exp (- dt / taum)))
      by (rewrite length_map; exact Hj).
    apply (map_nth (fun vi => vi * exp (- dt / taum))).
  - rewrite !nth_overflow by (rewrite ?length_map; exact Hj). lra.
Qed.

Lemma moto_spikes_spec (s : Network) (j : nat) :
  well_formed s ->
  spiked (moto_spikes s) j
  = (j <? 2)%nat
    && (Rgtb (moto_v s j * decay) 1
        && (refractory_steps <=? Z.of_nat (clock s) - moto_lastspike s j)%Z).
Proof.
  intros Hwf. unfold moto_spikes, moto_threshold.
  rewrite spiked_filter, moto_stateupdate_nth.
  replace (length (Moto.v (moto_stateupdate (clock s) (motoneurons s))))
    with 2%nat.
  2:{ unfold moto_stateupdate. cbn [Moto.v]. rewrite length_map.
      symmetry. apply (wf_mv s Hwf). }
  destruct (Nat.ltb_spec j 2) as [Hj|Hj]; [|reflexivity].
  cbn [andb]. fold (moto_v s j). f_equal.
  unfold moto_stateupdate, moto_lastspike. cbn [Moto.not_refractory].
  rewrite (nth_indep _ false
             ((refractory_steps <=? Z.of_nat (clock s) - never_spiked)%Z))
    by (rewrite length_map, (wf_ls s Hwf); exact Hj).
  apply (map_nth (fun ls => (refractory_steps <=? Z.of_nat (clock s) - ls)%Z)).
Qed.

Lemma moto_v_step (z : R) (s : Network) (j : nat) :
  well_formed s -> (j < 2)%nat ->
  moto_v (step z s) j
  = if spiked (moto_spikes s) j then 0
    else moto_v s j * decay
         + syn_input (retina_spikes s) sensorimotor_table j.
Proof.
  intros Hwf Hj. unfold moto_v, step.
  cbn [motoneurons moto_reset sensorimotor_pre moto_mark Moto.v].
  fold (moto_spikes s). fold (retina_spikes s).
  unfold reset_v.
  assert (Hlen : length (Moto.v (moto_stateupdate (clock s) (motoneurons s)))
                 = 2%nat).
  { unfold moto_stateupdate. cbn [Moto.v]. rewrite length_map.
    apply (wf_mv s Hwf). }
  rewrite length_add_to_v, Hlen, nth_map_seq by exact Hj.
  rewrite nth_add_to_v by (rewrite Hlen; exact Hj).
  rewrite moto_stateupdate_nth, (wf_ss s Hwf). reflexivity.
Qed.

Lemma moto_lastspike_step (z : R) (s : Network) (j : nat) :
  well_formed s -> (j < 2)%nat ->
  moto_lastspike (step z s) j
  = if spiked (moto_spikes s) j then Z.of_nat (clock s)
    else moto_lastspike s j.
Proof.
  intros Hwf Hj. unfold moto_lastspike, step.
  cbn [motoneurons moto_reset sensorimotor_pre moto_mark Moto.lastspike].
  fold (moto_spikes s).
  cbn [moto_stateupdate Moto.lastspike].
  rewrite (wf_ls s Hwf), nth_map_seq by exact Hj. reflexivity.
Qed.

Lemma motosynapses_pre_init (spikes : list nat) (e : Eye.t) :
  motosynapses_pre spikes motosynapses_init e
  = Eye.mk (Eye.x e) (Eye.velocity e) (Eye.x0 e + muscle_input spikes)
           (Eye.x_object e) (Eye.noise e).
Proof.
  rewrite motosynapses_init_val. unfold motosynapses_pre, muscle_input.
  cbn [fold_left pre w].
  destruct e as [ex ev e0 eo en].
  destruct (spiked spikes 0), (spiked spikes 1); cbn [Eye.x Eye.velocity
    Eye.x0 Eye.x_object Eye.noise]; f_equal; lra.
Qed.

Lemma eye_step (z : R) (s : Network) :
  well_formed s ->
  eye (step z s)
  = let e := eye s in
    Eye.mk (Eye.x e + dt * Eye.velocity e)
           (Eye.velocity e
            + dt * (alpha * (Eye.x0 e - Eye.x e) - beta * Eye.velocity e))
           (x0_relaxed e + muscle_input (moto_spikes s))
           (Eye.x_object e
            + dt * ((Eye.noise e - Eye.x_object e) / tau_object))
           (Eye.noise e + dt * (- Eye.noise e / tau_object)
            + / sqrt tau_object * sqrt dt * z).
Proof.
  intros Hwf. unfold step. cbn [eye]. fold (moto_spikes s).
  rewrite (wf_ms s Hwf), motosynapses_pre_init. reflexivity.
Qed.

(** ** Sensorimotor connectivity *)

Lemma synapses_from_map_seq (f : nat -> nat) (g : nat -> R) (k a n : nat) :
  synapses_from k (map (fun i => mkSynapse i (f i) (g i)) (seq a n))
  = if ((a <=? k) && (k <? a + n))%nat then [mkSynapse k (f k) (g k)] else [].
Proof.
  unfold synapses_from. revert a.
  induction n as [|n IH]; intros a; simpl.
  - destruct (Nat.leb_spec a k), (Nat.ltb_spec k (a + 0)); simpl;
      try reflexivity; lia.
  - rewrite IH.
    destruct (Nat.eqb_spec a k) as [->|Hne].
    + rewrite Nat.leb_refl.
      destruct (Nat.leb_spec (S k) k); [lia|].
      destruct (Nat.ltb_spec k (k + S n)); [|lia]. reflexivity.
    + destruct (Nat.leb_spec (S a) k), (Nat.leb_spec a k),
        (Nat.ltb_spec k (S a + n)), (Nat.ltb_spec k (a + S n));
        simpl; try reflexivity; lia.
Qed.

Lemma sensorimotor_step (z : R) (s : Network) :
  sensorimotor_synapses (step z s) = sensorimotor_synapses s.
Proof. reflexivity. Qed.

Lemma sensorimotor_run (rs : RandomSource) (n : nat) :
  sensorimotor_synapses (run_steps rs n)
  = sensorimotor_synapses (network_init rs).
Proof.
  induction n as [|n IH]; [reflexivity|].
  simpl run_steps. rewrite sensorimotor_step. exact IH.
Qed.

Lemma x_neuron_init (rs : RandomSource) (k : nat) :
  (k < N)%nat ->
  nth k (Retina.x_neuron (retina (network_init rs))) 0 = x_neuron_of k.
Proof.
  intros Hk. cbn [network_init retina retina_init Retina.x_neuron].
  apply nth_map_seq. exact Hk.
Qed.

Lemma synapses_from_init (rs : RandomSource) (k : nat) :
  synapses_from k (sensorimotor_synapses (network_init rs))
  = if (k <? N)%nat
    then [mkSynapse k (target_of (x_neuron_of k))
                    (weight_of N (x_neuron_of k))]
    else [].
Proof.
  cbn [network_init sensorimotor_synapses].
  rewrite sensorimotor_init_table. unfold sensorimotor_table.
  rewrite synapses_from_map_seq.
  destruct (Nat.leb_spec 0 k); [|lia]. reflexivity.
Qed.

(** C1: for every retinal unit k < N = 20, construction creates exactly one
    sensorimotor synapse leaving unit k; it targets motoneuron
    int(x_neuron_k > 0) and carries w = 20*|x_neuron_k|/N, where
    x_neuron_k = -1 + 2k/(N-1) is the value stored for unit k.  The table has
    N synapses, the i-th leaving unit i (no duplicate, no omission), and it
    is the same after any number of ticks. *)
Theorem C1_sensorimotor_setup (rs : RandomSource) :
  let net := network_init rs in
  let syns := sensorimotor_synapses net in
  N = 20%nat /\
  length syns = N /\
  map pre syns = seq 0 N /\
  (forall k : nat, (k < N)%nat ->
     let x_k := nth k (Retina.x_neuron (retina net)) 0 in
     x_k = -1 + 2 * INR k / (INR N - 1) /\
     synapses_from k syns
     = [mkSynapse k (if Rgtb x_k 0 then 1%nat else 0%nat)
                  (20 * Rabs x_k / INR N)]) /\
  (forall k : nat, (N <= k)%nat -> synapses_from k syns = []) /\
  (forall n : nat, sensorimotor_synapses (run_steps rs n) = syns).
Proof.
  intros net syns.
  assert (Hs : syns = sensorimotor_table) by apply sensorimotor_init_table.
  split; [reflexivity|].
  split; [rewrite Hs; unfold sensorimotor_table;
          rewrite length_map, length_seq; reflexivity|].
  split.
  { rewrite Hs. unfold sensorimotor_table. rewrite map_map.
    cbn [pre]. apply map_id. }
  split; [|split].
  - intros k Hk x_k.
    assert (Hx : x_k = x_neuron_of k) by (apply x_neuron_init; exact Hk).
    split.
    + rewrite Hx. unfold x_neuron_of. rewrite N_pred_INR, N_INR.
      replace (20 - 1) with 19 by lra. reflexivity.
    + unfold syns, net. rewrite synapses_from_init, Hx.
      destruct (Nat.ltb_spec k N); [|lia]. reflexivity.
  - intros k Hk. unfold syns, net. rewrite synapses_from_init.
    destruct (Nat.ltb_spec k N); [lia|]. reflexivity.
  - intros n. apply sensorimotor_run.
Qed.

Lemma C1_witness :
  synapses_from 19 (sensorimotor_synapses (network_init zero_source))
  = [mkSynapse 19
       (if Rgtb (nth 19 (Retina.x_neuron (retina (network_init zero_source))) 0)
                0
        then 1%nat else 0%nat)
       (20 * Rabs (nth 19 (Retina.x_neuron
                             (retina (network_init zero_source))) 0)
        / INR N)].
Proof.
  apply (C1_sensorimotor_setup zero_source). unfold N. lia.
Defined.

(** C6: a retinal unit at a negative position connects to the left
    motoneuron (index 0), a unit at a positive or zero position to the right
    motoneuron (index 1).  The connection rule int(x > 0) would send a unit at
    exactly 0 to index 0, but with N = 20 no unit has position 0
    ([x_neuron_of_nonzero]), so the statement holds for every unit. *)
Theorem C6_hemifield_target (rs : RandomSource) (k : nat) (s : Synapse) :
  (k < N)%nat ->
  In s (synapses_from k (sensorimotor_synapses (network_init rs))) ->
  let x_k := nth k (Retina.x_neuron (retina (network_init rs))) 0 in
  (x_k < 0 -> post s = 0%nat) /\ (0 <= x_k -> post s = 1%nat).
Proof.
  intros Hk Hin x_k.
  assert (Hx : x_k = x_neuron_of k) by (apply x_neuron_init; exact Hk).
  rewrite synapses_from_init in Hin.
  destruct (Nat.ltb_spec k N); [|lia].
  destruct Hin as [<-|[]]. cbn [post]. rewrite Hx.
  pose proof (x_neuron_of_nonzero k) as Hnz.
  split; intros Hsign.
  - apply target_of_neg. lra.
  - apply target_of_pos. lra.
Qed.

(** Unit 3 lies in the left hemifield and its synapse goes to index 0;
    unit 12 lies in the right hemifield and its synapse goes to index 1. *)
Lemma C6_witness :
  let s3 := mkSynapse 3 (target_of (x_neuron_of 3))
                      (weight_of N (x_neuron_of 3)) in
  let x_3 := nth 3 (Retina.x_neuron (retina (network_init zero_source))) 0 in
  (3 < N)%nat /\
  In s3 (synapses_from 3 (sensorimotor_synapses (network_init zero_source))) /\
  x_3 < 0 /\ post s3 = 0%nat.
Proof.
  intros s3 x_3.
  assert (H3 : (3 < N)%nat) by (unfold N; lia).
  assert (Hin : In s3 (synapses_from 3
                         (sensorimotor_synapses (network_init zero_source)))).
  { rewrite synapses_from_init. left. reflexivity. }
  assert (Hneg : x_3 < 0).
  { unfold x_3. rewrite x_neuron_init by exact H3.
    apply x_neuron_of_neg. lia. }
  repeat split; try assumption.
  exact (proj1 (C6_hemifield_target zero_source 3 s3 H3 Hin) Hneg).
Defined.

(** ** Receptive field *)

Lemma I_drive_le_gain (xo xe xn : R) : I_drive xo xe xn <= gain.
Proof.
  unfold I_drive, gain.
  set (u := ((xo - xe - xn) / width) ^ 2).
  assert (Hu : 0 <= u) by (unfold u; apply pow2_ge_0).
  assert (He : exp (- u) <= 1).
  { destruct (Req_dec u 0) as [->|Hne].
    - rewrite Ropp_0, exp_0. lra.
    - rewrite <- exp_0. left. apply exp_increasing. lra. }
  lra.
Qed.

Lemma I_drive_pos (xo xe xn : R) : 0 < I_drive xo xe xn.
Proof.
  unfold I_drive, gain.
  pose proof (exp_pos (- ((xo - xe - xn) / width) ^ 2)). lra.
Qed.

Lemma I_drive_peak (xo xe xn : R) :
  xo - xe - xn = 0 -> I_drive xo xe xn = gain.
Proof.
  intros Hal. unfold I_drive. rewrite Hal.
  replace (- (0 / width) ^ 2) with 0 by (unfold Rdiv; ring).
  rewrite exp_0. ring.
Qed.

(** C7: with N = 20 the receptive-field width 2/N is 0.1; a target exactly
    at the preferred position of a unit (x_object - x_eye - x_neuron = 0)
    gives the drive I = gain = 4, which is the largest value the drive
    takes. *)
Theorem C7_peak_drive (xo xe xn : R) :
  xo - xe - xn = 0 ->
  width = 2 / INR N /\ width = 1 / 10 /\
  I_drive xo xe xn = gain /\ gain = 4 /\
  (forall xo' xe' xn' : R, I_drive xo' xe' xn' <= I_drive xo xe xn).
Proof.
  intros Hal.
  assert (Hpeak : I_drive xo xe xn = gain) by (apply I_drive_peak; exact Hal).
  split; [reflexivity|].
  split; [rewrite width_val; lra|].
  split; [exact Hpeak|].
  split; [reflexivity|].
  intros xo' xe' xn'. rewrite Hpeak. apply I_drive_le_gain.
Qed.

(** The target at 3/2 seen by an eye at 1/2 is at the preferred position of
    the unit at 1. *)
Lemma C7_witness : 3 / 2 - 1 / 2 - 1 = 0 /\ I_drive (3 / 2) (1 / 2) 1 = gain.
Proof.
  assert (H : 3 / 2 - 1 / 2 - 1 = 0) by lra.
  split; [exact H|].
  exact (proj1 (proj2 (proj2 (C7_peak_drive (3 / 2) (1 / 2) 1 H)))).
Defined.

(** ** The conductance gs *)

Lemma gs_step (z : R) (s : Network) :
  Retina.gs (retina (step z s)) = Retina.gs (retina s).
Proof. reflexivity. Qed.

Lemma gs_run (rs : RandomSource) (n : nat) :
  Retina.gs (retina (run_steps rs n)) = repeat 0 N.
Proof.
  induction n as [|n IH]; [reflexivity|].
  simpl run_steps. rewrite gs_step. exact IH.
Qed.

(** C9: gs of every retinal unit is written by no statement of the tick
    (state update, threshold, on_pre of either synapse family, reset): after
    any number of ticks the array gs is what construction made it, all
    zeros.  Hence the state update of every retinal unit, at every tick, is
    the exact one-tick solution of dv/dt = (I - v)/taum, that is
    I + (v - I)*exp(-dt/taum). *)
Theorem C9_gs_unused (rs : RandomSource) (n : nat) :
  let s := run_steps rs n in
  Retina.gs (retina s) = Retina.gs (retina (network_init rs)) /\
  length (Retina.gs (retina s)) = N /\
  (forall k : nat, retina_gs s k = 0) /\
  (forall k : nat, (k < N)%nat ->
     let I_k := I_drive (Eye.x_object (eye s)) (Eye.x (eye s))
                        (nth k (Retina.x_neuron (retina s)) 0) in
     nth k (Retina.v (retina_stateupdate (eye s) (retina s))) 0
     = I_k + (retina_v s k - I_k) * exp (- dt / taum)).
Proof.
  intros s.
  assert (Hgs : Retina.gs (retina s) = repeat 0 N) by apply gs_run.
  split; [rewrite Hgs; reflexivity|].
  split; [rewrite Hgs; apply repeat_length|].
  split.
  - intros k. unfold retina_gs. rewrite Hgs. apply nth_repeat_0.
  - intros k Hk I_k.
    pose proof (well_formed_run rs n) as Hwf. fold s in Hwf.
    rewrite retina_stateupdate_nth by assumption.
    unfold retina_v_updated, drive, I_k, decay.
    rewrite (wf_xn s Hwf), nth_map_seq by exact Hk. reflexivity.
Qed.

Lemma C9_witness :
  let s := run_steps zero_source 2 in
  nth 7 (Retina.v (retina_stateupdate (eye s) (retina s))) 0
  = I_drive (Eye.x_object (eye s)) (Eye.x (eye s))
            (nth 7 (Retina.x_neuron (retina s)) 0)
    + (retina_v s 7
       - I_drive (Eye.x_object (eye s)) (Eye.x (eye s))
                 (nth 7 (Retina.x_neuron (retina s)) 0))
      * exp (- dt / taum).
Proof.
  apply (C9_gs_unused zero_source 2). unfold N. lia.
Defined.

(** ** Muscle coupling *)

Lemma muscle_input_sum (p : nat -> bool) :
  sum_list (map (fun i => nth i [- (1 / 2); 1 / 2] 0) (filter p (seq 0 2)))
  = muscle_input (filter p (seq 0 2)).
Proof.
  unfold muscle_input. rewrite !spiked_filter.
  cbn [seq filter Nat.ltb Nat.leb andb].
  destruct (p 0%nat), (p 1%nat); cbn [map sum_list fold_right nth]; lra.
Qed.

Lemma moto_spikes_filter (s : Network) :
  well_formed s ->
  exists p : nat -> bool, moto_spikes s = filter p (seq 0 2).
Proof.
  intros Hwf. unfold moto_spikes, moto_threshold.
  eexists.
  replace (length (Moto.v (moto_stateupdate (clock s) (motoneurons s))))
    with 2%nat; [reflexivity|].
  unfold moto_stateupdate. cbn [Moto.v]. rewrite length_map.
  symmetry. apply (wf_mv s Hwf).
Qed.

(** C2: at every tick of a run, x0 of the eye after the tick is its Euler
    relaxation x0 + dt*(-x0/tau_muscle) plus w_i for every motoneuron i that
    spiked at that tick, with w_0 = -0.5 and w_1 = +0.5; the spiking indices
    are among {0, 1}, each at most once; and at a tick without motoneuron
    spike x0 changes by the relaxation term alone. *)
Theorem C2_muscle_coupling (rs : RandomSource) (n : nat) :
  let s := run_steps rs n in
  let s' := run_steps rs (S n) in
  motosynapse_w s 0 = - (1 / 2) /\ motosynapse_w s 1 = 1 / 2 /\
  Eye.x0 (eye s')
  = Eye.x0 (eye s) + dt * (- Eye.x0 (eye s) / tau_muscle)
    + sum_list (map (motosynapse_w s) (moto_spikes s)) /\
  (forall i : nat, In i (moto_spikes s) -> (i < 2)%nat) /\
  NoDup (moto_spikes s) /\
  (moto_spikes s = [] ->
   Eye.x0 (eye s')
   = Eye.x0 (eye s) + dt * (- Eye.x0 (eye s) / tau_muscle)).
Proof.
  intros s s'.
  pose proof (well_formed_run rs n) as Hwf. fold s in Hwf.
  assert (Hw : forall i, motosynapse_w s i = nth i [- (1 / 2); 1 / 2] 0).
  { intros i. unfold motosynapse_w. rewrite (wf_ms s Hwf). reflexivity. }
  destruct (moto_spikes_filter s Hwf) as [p Hp].
  assert (Hx0 : Eye.x0 (eye s')
                = x0_relaxed (eye s) + muscle_input (moto_spikes s)).
  { unfold s'. simpl run_steps. fold s. rewrite eye_step by exact Hwf.
    reflexivity. }
  split; [rewrite Hw; reflexivity|].
  split; [rewrite Hw; reflexivity|].
  split; [|split; [|split]].
  - rewrite Hx0. unfold x0_relaxed.
    rewrite (map_ext _ _ Hw), Hp, muscle_input_sum. reflexivity.
  - intros i Hi. rewrite Hp in Hi. apply filter_In in Hi as [Hi _].
    apply in_seq in Hi. lia.
  - rewrite Hp. apply NoDup_filter, seq_NoDup.
  - intros Hnone. rewrite Hx0, Hnone. unfold x0_relaxed, muscle_input.
    cbn [spiked existsb]. lra.
Qed.

(** ** Input delivered by the sensorimotor synapses *)

Lemma syn_input_single (spikes : list nat) (f : nat -> nat) (g : nat -> R)
  (j k a n : nat) :
  (forall i : nat, (a <= i < a + n)%nat -> i <> k ->
     spiked spikes i && (f i =? j)%nat = false) ->
  syn_input spikes (map (fun i => mkSynapse i (f i) (g i)) (seq a n)) j
  = if ((a <=? k) && (k <? a + n))%nat && (spiked spikes k && (f k =? j)%nat)
    then g k else 0.
Proof.
  revert a. induction n as [|n IH]; intros a Hoth.
  - simpl. destruct (Nat.leb_spec a k), (Nat.ltb_spec k (a + 0));
      simpl; try reflexivity; lia.
  - cbn [seq map syn_input fold_right pre post w].
    fold (syn_input spikes
            (map (fun i => mkSynapse i (f i) (g i)) (seq (S a) n)) j).
    rewrite IH by (intros i Hi Hne; apply Hoth; [lia | exact Hne]).
    destruct (Nat.eq_dec a k) as [->|Hne].
    + rewrite Nat.leb_refl.
      destruct (Nat.leb_spec (S k) k); [lia|].
      destruct (Nat.ltb_spec k (k + S n)); [|lia].
      cbn [andb]. destruct (spiked spikes k && (f k =? j)%nat); lra.
    + rewrite (Hoth a) by (try lia; exact Hne).
      destruct (Nat.leb_spec (S a) k), (Nat.leb_spec a k),
        (Nat.ltb_spec k (S a + n)), (Nat.ltb_spec k (a + S n));
        cbn [andb]; try lia; lra.
Qed.

Lemma syn_input_nonneg (spikes : list nat) (j : nat) :
  0 <= syn_input spikes sensorimotor_table j.
Proof.
  unfold sensorimotor_table.
  assert (H : forall l, (forall i, In i l -> (i < N)%nat) ->
    0 <= syn_input spikes
           (map (fun i => mkSynapse i (target_of (x_neuron_of i))
                            (weight_of N (x_neuron_of i))) l) j).
  { induction l as [|i l IH]; intros Hl; [simpl; lra|].
    cbn [map syn_input fold_right pre post w].
    assert (Hi : (i < N)%nat) by (apply Hl; left; reflexivity).
    pose proof (weight_of_bounds i Hi).
    assert (0 <= syn_input spikes
              (map (fun i => mkSynapse i (target_of (x_neuron_of i))
                               (weight_of N (x_neuron_of i))) l) j)
      by (apply IH; intros i' Hi'; apply Hl; right; exact Hi').
    unfold syn_input in *.
    destruct (spiked spikes i && (target_of (x_neuron_of i) =? j)%nat); lra. }
  apply H. intros i Hi. apply in_seq in Hi. lia.
Qed.

Lemma spiked_single (k i : nat) : spiked [k] i = (i =? k)%nat.
Proof. unfold spiked. cbn [existsb]. apply orb_false_r. Qed.

Lemma syn_input_one_spike (k j : nat) :
  (k < N)%nat ->
  syn_input [k] sensorimotor_table j
  = if (target_of (x_neuron_of k) =? j)%nat
    then weight_of N (x_neuron_of k) else 0.
Proof.
  intros Hk. unfold sensorimotor_table.
  rewrite (syn_input_single [k] _ _ j k).
  - destruct (Nat.ltb_spec k (0 + N)); [|lia].
    rewrite spiked_single, Nat.eqb_refl. reflexivity.
  - intros i _ Hne. rewrite spiked_single.
    destruct (Nat.eqb_spec i k); [contradiction | reflexivity].
Qed.

(** ** A single retinal spike cannot fire a resting motoneuron *)

(** C10: every sensorimotor weight lies in [1/19, 1], so 0 < w_k <= 1, the
    extremes being reached by the outermost units (w = 1) and the two
    innermost ones (w = 1/19).  The motoneuron threshold is the strict
    v > 1: when exactly one retinal unit k spikes at a tick and a motoneuron
    has potential 0, that motoneuron ends the tick with potential w_k (or 0
    if k is not connected to it), the threshold condition is false on it,
    and it does not spike at the following tick. *)
Theorem C10_single_spike_subthreshold (s : Network) (z : R) (k j : nat) :
  well_formed s -> (k < N)%nat -> (j < 2)%nat ->
  retina_spikes s = [k] -> moto_v s j = 0 ->
  let w_of := fun i : nat => weight_of N (x_neuron_of i) in
  (forall i : nat, (i < N)%nat ->
     In (mkSynapse i (target_of (x_neuron_of i)) (w_of i))
        (sensorimotor_synapses s) /\
     0 < w_of i /\ / 19 <= w_of i /\ w_of i <= 1) /\
  w_of 0%nat = 1 /\ w_of 19%nat = 1 /\
  w_of 9%nat = / 19 /\ w_of 10%nat = / 19 /\
  moto_v (step z s) j
  = (if (target_of (x_neuron_of k) =? j)%nat then w_of k else 0) /\
  Rgtb (moto_v (step z s) j) 1 = false /\
  spiked (moto_spikes (step z s)) j = false.
Proof.
  intros Hwf Hk Hj Hspk Hv0 w_of.
  assert (Hval : forall i (c : R), 2 * INR i - 19 = c ->
                   w_of i = Rabs (c / 19)).
  { intros i c Hc. unfold w_of.
    rewrite weight_of_val, x_neuron_of_val, Hc. reflexivity. }
  assert (Hstep : moto_v (step z s) j
                  = if (target_of (x_neuron_of k) =? j)%nat
                    then w_of k else 0).
  { rewrite moto_v_step by assumption.
    rewrite moto_spikes_spec by assumption.
    rewrite Hv0, Rmult_0_l.
    replace (Rgtb 0 1) with false by (symmetry; apply Rgtb_false; lra).
    rewrite andb_false_l, andb_false_r, Hspk.
    rewrite syn_input_one_spike by exact Hk. unfold w_of.
    destruct (target_of (x_neuron_of k) =? j)%nat; lra. }
  assert (Hle : 0 <= moto_v (step z s) j <= 1).
  { rewrite Hstep. pose proof (weight_of_bounds k Hk). fold (w_of k) in *.
    destruct (target_of (x_neuron_of k) =? j)%nat; lra. }
  split.
  { intros i Hi. pose proof (weight_of_bounds i Hi). fold (w_of i) in *.
    split; [|lra].
    rewrite (wf_ss s Hwf). unfold sensorimotor_table.
    apply in_map_iff. exists i. split; [reflexivity|].
    apply in_seq. lia. }
  split; [rewrite (Hval 0%nat (-19)) by (simpl; lra);
          rewrite Rabs_left; lra|].
  split; [rewrite (Hval 19%nat 19) by (simpl; lra);
          rewrite Rabs_right; lra|].
  split; [rewrite (Hval 9%nat (-1)) by (simpl; lra);
          rewrite Rabs_left; lra|].
  split; [rewrite (Hval 10%nat 1) by (simpl; lra);
          rewrite Rabs_right; lra|].
  split; [exact Hstep|].
  split; [apply Rgtb_false; lra|].
  rewrite moto_spikes_spec by (apply well_formed_step; exact Hwf).
  replace (Rgtb (moto_v (step z s) j * decay) 1) with false.
  - rewrite andb_false_l, andb_false_r. reflexivity.
  - symmetry. apply Rgtb_false.
    pose proof decay_bounds. pose proof decay_pos. nra.
Qed.

(** ** Which retinal units spike *)

Lemma filter_seq_single (p : nat -> bool) (k n : nat) :
  (k < n)%nat -> p k = true ->
  (forall i : nat, (i < n)%nat -> i <> k -> p i = false) ->
  filter p (seq 0 n) = [k].
Proof.
  intros Hk Hpk Hoth.
  assert (H : forall a m, (a <= k < a + m)%nat -> (a + m <= n)%nat ->
                filter p (seq a m) = [k]).
  { intros a m. revert a. induction m as [|m IH]; intros a Ha Hn; [lia|].
    cbn [seq filter]. destruct (Nat.eq_dec a k) as [->|Hne].
    - rewrite Hpk. f_equal.
      assert (Hnone : forall b l, (k < b)%nat -> (b + l <= n)%nat ->
                        filter p (seq b l) = []).
      { intros b l. revert b. induction l as [|l IHl]; intros b Hb Hbn;
          [reflexivity|].
        cbn [seq filter]. rewrite (Hoth b) by lia. apply IHl; lia. }
      apply Hnone; lia.
    - rewrite (Hoth a) by lia. apply IH; lia. }
  apply H; lia.
Qed.

Lemma filter_seq_none (p : nat -> bool) (n : nat) :
  (forall i : nat, (i < n)%nat -> p i = false) ->
  filter p (seq 0 n) = [].
Proof.
  intros Hnone.
  assert (H : forall a m, (a + m <= n)%nat -> filter p (seq a m) = []).
  { intros a m. revert a. induction m as [|m IH]; intros a Ha; [reflexivity|].
    cbn [seq filter]. rewrite (Hnone a) by lia. apply IH; lia. }
  apply H; lia.
Qed.

Lemma retina_spikes_eq (s : Network) :
  well_formed s ->
  retina_spikes s
  = filter (fun k => Rgtb (retina_v_updated s k) 1) (seq 0 N).
Proof.
  intros Hwf. unfold retina_spikes, retina_threshold.
  replace (length (Retina.v (retina_stateupdate (eye s) (retina s)))) with N.
  2:{ unfold retina_stateupdate. cbn [Retina.v].
      rewrite length_map, length_seq. symmetry. apply (wf_rv s Hwf). }
  apply filter_ext_in. intros k Hk. apply in_seq in Hk.
  rewrite retina_stateupdate_nth by (try assumption; lia). reflexivity.
Qed.

Lemma moto_spikes_eq (s : Network) :
  well_formed s ->
  moto_spikes s
  = filter (fun j => Rgtb (moto_v s j * decay) 1
                     && (refractory_steps
                         <=? Z.of_nat (clock s) - moto_lastspike s j)%Z)
           (seq 0 2).
Proof.
  intros Hwf.
  destruct (moto_spikes_filter s Hwf) as [p Hp]. rewrite Hp.
  apply filter_ext_in. intros j Hj. apply in_seq in Hj.
  pose proof (moto_spikes_spec s j Hwf) as H.
  rewrite Hp, spiked_filter in H.
  destruct (Nat.ltb_spec j 2); [|lia]. exact H.
Qed.

(** A potential in [0, 1] driven by I <= 4 stays below 1 after one tick if
    it starts at 0. *)
Lemma updated_from_zero (I : R) :
  0 < I -> I <= gain -> I + (0 - I) * decay <= / 50.
Proof.
  unfold gain. intros H0 H4. pose proof decay_bounds. nra.
Qed.

Lemma I_drive_lower (xo xe xn : R) :
  gain * (1 - ((xo - xe - xn) / width) ^ 2) <= I_drive xo xe xn.
Proof.
  unfold I_drive, gain.
  pose proof (exp_ineq1_le (- ((xo - xe - xn) / width) ^ 2)). lra.
Qed.

Lemma retina_v_init (rs : RandomSource) (k : nat) :
  (k < N)%nat -> retina_v (network_init rs) k = rand rs k.
Proof.
  intros Hk. unfold retina_v.
  cbn [network_init retina retina_init Retina.v].
  apply nth_map_seq. exact Hk.
Qed.

Lemma drive_10_at_rest : 2 <= I_drive 0 0 (x_neuron_of 10).
Proof.
  rewrite x_neuron_of_val. replace (INR 10) with 10 by (simpl; lra).
  pose proof (I_drive_lower 0 0 ((2 * 10 - 19) / 19)) as H.
  rewrite width_val in H. unfold gain in H.
  replace (((0 - 0 - (2 * 10 - 19) / 19) / / 10) ^ 2) with (100 / 361) in H
    by field.
  lra.
Qed.

Lemma retina_spikes_source_10 :
  retina_spikes (network_init source_10) = [10%nat].
Proof.
  pose proof (well_formed_init source_10) as Hwf.
  rewrite retina_spikes_eq by exact Hwf.
  apply filter_seq_single.
  - unfold N. lia.
  - apply Rgtb_true. unfold retina_v_updated, drive.
    rewrite retina_v_init by (unfold N; lia).
    cbn [network_init eye eye_init Eye.x_object Eye.x source_10 rand Nat.eqb].
    pose proof drive_10_at_rest. pose proof decay_bounds.
    pose proof (I_drive_le_gain 0 0 (x_neuron_of 10)). unfold gain in *. nra.
  - intros i Hi Hne. apply Rgtb_false. unfold retina_v_updated, drive.
    rewrite retina_v_init by exact Hi.
    cbn [network_init eye eye_init Eye.x_object Eye.x source_10 rand].
    destruct (Nat.eqb_spec i 10); [contradiction|].
    pose proof (updated_from_zero (I_drive 0 0 (x_neuron_of i))
                  (I_drive_pos _ _ _) (I_drive_le_gain _ _ _)).
    lra.
Qed.

Lemma moto_v_init (rs : RandomSource) (j : nat) :
  moto_v (network_init rs) j = 0.
Proof.
  unfold moto_v. cbn [network_init motoneurons motoneurons_init Moto.v].
  destruct j as [|[|[|j]]]; reflexivity.
Qed.

(** Unit 10 (weight 1/19, right motoneuron) is the only unit that spikes at
    the first tick of the run from [source_10]; the right motoneuron, at
    potential 0, ends the tick at 1/19 and stays silent. *)
Lemma C10_witness :
  retina_spikes (network_init source_10) = [10%nat] /\
  moto_v (network_init source_10) 1 = 0 /\
  moto_v (step 0 (network_init source_10)) 1
  = (if (target_of (x_neuron_of 10) =? 1)%nat
     then weight_of N (x_neuron_of 10) else 0) /\
  Rgtb (moto_v (step 0 (network_init source_10)) 1) 1 = false /\
  spiked (moto_spikes (step 0 (network_init source_10))) 1 = false.
Proof.
  assert (H10 : (10 < N)%nat) by (unfold N; lia).
  assert (H1 : (1 < 2)%nat) by lia.
  split; [exact retina_spikes_source_10|].
  split; [apply moto_v_init|].
  exact (proj2 (proj2 (proj2 (proj2 (proj2
    (C10_single_spike_subthreshold (network_init source_10) 0 10 1
       (well_formed_init source_10) H10 H1
       retina_spikes_source_10 (moto_v_init source_10 1))))))).
Defined.

(** ** The run without stochastic drive *)

Lemma exp_ge_4 (u : R) : 900 / 361 <= u -> 4 <= exp u.
Proof.
  intros Hu.
  replace u with (u / 2 + u / 2) by lra. rewrite exp_plus.
  pose proof (exp_ineq1_le (u / 2)). nra.
Qed.

Lemma drive_at_rest_far (k : nat) :
  (k < N)%nat -> k <> 9%nat -> k <> 10%nat -> drive_at_rest k <= 1.
Proof.
  intros Hk H9 H10. unfold drive_at_rest, I_drive, gain.
  rewrite x_neuron_of_val, width_val.
  set (u := ((0 - 0 - (2 * INR k - 19) / 19) / / 10) ^ 2).
  assert (Hu : 900 / 361 <= u).
  { replace u with (100 / 361 * (2 * INR k - 19) ^ 2) by (unfold u; field).
    assert (Hsq : 9 <= (2 * INR k - 19) ^ 2).
    { destruct (Nat.le_gt_cases k 8) as [H|H].
      - apply le_INR in H. replace (INR 8) with 8 in H by (simpl; lra). nra.
      - assert (H11 : (11 <= k)%nat) by lia.
        apply le_INR in H11.
        replace (INR 11) with 11 in H11 by (simpl; lra). nra. }
    lra. }
  pose proof (exp_ge_4 u Hu) as H4.
  rewrite exp_Ropp.
  assert (Hinv : / exp u <= / 4).
  { apply Rinv_le_contravar; lra. }
  lra.
Qed.

Lemma central_unit_lt (j : nat) : (central_unit j < N)%nat.
Proof. unfold N. destruct j; simpl; lia. Qed.

Lemma central_unit_synapse (j : nat) :
  (j < 2)%nat ->
  target_of (x_neuron_of (central_unit j)) = j /\
  weight_of N (x_neuron_of (central_unit j)) = / 19.
Proof.
  intros Hj.
  assert (Hj' : j = 0%nat \/ j = 1%nat) by lia.
  destruct Hj' as [-> | ->]; cbn [central_unit]; split.
  - apply target_of_neg. left. apply x_neuron_of_neg. lia.
  - rewrite weight_of_val, x_neuron_of_val.
    replace (INR 9) with 9 by (simpl; lra).
    rewrite Rabs_left; lra.
  - apply target_of_pos. apply x_neuron_of_pos. lia.
  - rewrite weight_of_val, x_neuron_of_val.
    replace (INR 10) with 10 by (simpl; lra).
    rewrite Rabs_right; lra.
Qed.

Lemma quiescent_drive (s : Network) (k : nat) :
  quiescent s -> drive s k = drive_at_rest k.
Proof.
  intros Hq. unfold drive, drive_at_rest. rewrite (q_eye s Hq). reflexivity.
Qed.

(** In a quiescent state only the two central units can spike. *)
Lemma quiescent_far_silent (s : Network) (k : nat) :
  quiescent s -> k <> 9%nat -> k <> 10%nat ->
  spiked (retina_spikes s) k = false.
Proof.
  intros Hq H9 H10.
  rewrite retina_spikes_spec by apply (q_wf s Hq).
  destruct (Nat.ltb_spec k N) as [Hk|Hk]; [|reflexivity].
  cbn [andb]. apply Rgtb_false.
  unfold retina_v_updated. rewrite quiescent_drive by exact Hq.
  pose proof (q_far s Hq k Hk H9 H10).
  pose proof (drive_at_rest_far k Hk H9 H10).
  pose proof decay_pos. nra.
Qed.

Lemma quiescent_input (s : Network) (j : nat) :
  quiescent s -> (j < 2)%nat ->
  syn_input (retina_spikes s) sensorimotor_table j
  = if spiked (retina_spikes s) (central_unit j) then / 19 else 0.
Proof.
  intros Hq Hj. unfold sensorimotor_table.
  destruct (central_unit_synapse j Hj) as [Ht Hw].
  rewrite (syn_input_single _ _ _ j (central_unit j)).
  - pose proof (central_unit_lt j).
    destruct (Nat.ltb_spec (central_unit j) (0 + N)); [|lia].
    rewrite Ht, Hw, Nat.eqb_refl, andb_true_r.
    destruct (Nat.leb_spec 0 (central_unit j)); [|lia].
    cbn [andb]. rewrite ?andb_true_r. reflexivity.
  - intros i _ Hne.
    destruct (Nat.eq_dec i 9) as [->|H9];
      [|destruct (Nat.eq_dec i 10) as [->|H10]].
    + replace (target_of (x_neuron_of 9)) with 0%nat
        by (symmetry; apply target_of_neg; left; apply x_neuron_of_neg; lia).
      assert (Hj' : j = 1%nat)
        by (destruct j as [|[|j]]; simpl in Hne; try lia; congruence).
      subst j. apply andb_false_r.
    + replace (target_of (x_neuron_of 10)) with 1%nat
        by (symmetry; apply target_of_pos; apply x_neuron_of_pos; lia).
      assert (Hj' : j = 0%nat)
        by (destruct j as [|[|j]]; simpl in Hne; try lia; congruence).
      subst j. apply andb_false_r.
    + rewrite quiescent_far_silent by assumption. reflexivity.
Qed.

Lemma quiescent_moto_silent (s : Network) :
  quiescent s -> moto_spikes s = [].
Proof.
  intros Hq. rewrite moto_spikes_eq by apply (q_wf s Hq).
  apply filter_seq_none. intros j Hj.
  replace (Rgtb (moto_v s j * decay) 1) with false; [reflexivity|].
  symmetry. apply Rgtb_false.
  destruct (q_moto s Hq j Hj) as [Hm0 Hm].
  pose proof (q_retina s Hq (central_unit j) (central_unit_lt j)) as [Hr0 _].
  pose proof (I_drive_le_gain 0 0 (x_neuron_of (central_unit j))) as HI.
  fold (drive_at_rest (central_unit j)) in HI. unfold gain in HI.
  pose proof decay_bounds. nra.
Qed.

Lemma quiescent_init (rs : RandomSource) :
  (forall i : nat, (i < N)%nat -> rand rs i = 0) ->
  quiescent (network_init rs).
Proof.
  intros Hrand. constructor.
  - apply well_formed_init.
  - reflexivity.
  - intros k Hk. rewrite retina_v_init, Hrand by exact Hk. lra.
  - intros k Hk _ _. rewrite retina_v_init, Hrand by exact Hk.
    left. apply I_drive_pos.
  - intros j Hj. rewrite moto_v_init.
    rewrite retina_v_init, Hrand by apply central_unit_lt.
    pose proof (I_drive_pos 0 0 (x_neuron_of (central_unit j))) as HI.
    fold (drive_at_rest (central_unit j)) in HI. lra.
Qed.

Lemma quiescent_step (s : Network) :
  quiescent s -> quiescent (step 0 s).
Proof.
  intros Hq. pose proof (q_wf s Hq) as Hwf.
  pose proof (quiescent_moto_silent s Hq) as Hsilent.
  pose proof decay_bounds as [Hd1 Hd2]. pose proof decay_pos as Hd0.
  assert (Hret : forall k, (k < N)%nat ->
            0 <= retina_v_updated s k
            /\ (retina_v s k <= drive_at_rest k ->
                retina_v_updated s k <= drive_at_rest k)).
  { intros k Hk. unfold retina_v_updated.
    rewrite quiescent_drive by exact Hq.
    pose proof (q_retina s Hq k Hk) as [Hr0 Hr1].
    pose proof (I_drive_pos 0 0 (x_neuron_of k)) as HI.
    fold (drive_at_rest k) in HI.
    split; [nra | intros Hle; nra]. }
  constructor.
  - apply well_formed_step. exact Hwf.
  - rewrite eye_step by exact Hwf. rewrite (q_eye s Hq), Hsilent.
    unfold x0_relaxed, muscle_input.
    cbn [Eye.x Eye.velocity Eye.x0 Eye.x_object Eye.noise spiked existsb].
    unfold dt, tau_muscle, tau_object, ms.
    f_equal; lra.
  - intros k Hk. rewrite retina_v_step by assumption.
    destruct (spiked (retina_spikes s) k) eqn:Hs; [lra|].
    rewrite retina_spikes_spec in Hs by exact Hwf.
    destruct (Nat.ltb_spec k N); [|lia]. cbn [andb] in Hs.
    apply Rgtb_false in Hs. destruct (Hret k Hk). lra.
  - intros k Hk H9 H10. rewrite retina_v_step by assumption.
    rewrite quiescent_far_silent by assumption.
    apply (Hret k Hk). apply (q_far s Hq); assumption.
  - intros j Hj.
    pose proof (central_unit_lt j) as Hc.
    destruct (q_moto s Hq j Hj) as [Hm0 Hm].
    pose proof (q_retina s Hq _ Hc) as [Hr0 Hr1].
    rewrite moto_v_step by assumption.
    rewrite Hsilent. cbn [spiked existsb].
    rewrite quiescent_input by assumption.
    rewrite retina_v_step by assumption.
    destruct (spiked (retina_spikes s) (central_unit j)) eqn:Hs.
    + rewrite retina_spikes_spec in Hs by exact Hwf.
      destruct (Nat.ltb_spec (central_unit j) N); [|lia]. cbn [andb] in Hs.
      apply Rgtb_true in Hs. unfold retina_v_updated in Hs.
      rewrite quiescent_drive in Hs by exact Hq.
      split; [nra|].
      assert (Hmd : moto_v s j * decay
                    <= / 19 * (drive_at_rest (central_unit j)
                               - retina_v s (central_unit j)) * decay)
        by nra.
      nra.
    + unfold retina_v_updated. rewrite quiescent_drive by exact Hq.
      split; [nra|].
      assert (Hmd : (moto_v s j + / 19 * retina_v s (central_unit j)) * decay
                    <= / 19 * drive_at_rest (central_unit j) * decay)
        by nra.
      nra.
Qed.

Section QuiescentRun.

Variable rs : RandomSource.
Hypothesis rand_zero : forall i : nat, (i < N)%nat -> rand rs i = 0.
Hypothesis randn_zero : forall m : nat, randn rs m = 0.

Lemma quiescent_run (n : nat) : quiescent (run_steps rs n).
Proof.
  induction n as [|n IH].
  - apply quiescent_init. exact rand_zero.
  - simpl run_steps. rewrite randn_zero. apply quiescent_step. exact IH.
Qed.

Lemma quiescent_run_silent (n : nat) : moto_spikes (run_steps rs n) = [].
Proof. apply quiescent_moto_silent, quiescent_run. Qed.

Lemma quiescent_run_eye (n : nat) :
  eye (run_steps rs n) = Eye.mk 0 0 0 0 0.
Proof. apply (q_eye _ (quiescent_run n)). Qed.

End QuiescentRun.

Lemma S_motoneurons_step (z : R) (s : Network) :
  S_motoneurons (monitors (step z s))
  = S_motoneurons (monitors s)
    ++ map (fun i => (clock s, i)) (moto_spikes s).
Proof. reflexivity. Qed.

Lemma S_retina_step (z : R) (s : Network) :
  S_retina (monitors (step z s))
  = S_retina (monitors s)
    ++ map (fun i => (clock s, i)) (retina_spikes s).
Proof. reflexivity. Qed.

Lemma M_run (rs : RandomSource) (n : nat) :
  M (monitors (run_steps rs n))
  = map (fun m => eye_sample (run_steps rs m)) (seq 0 n).
Proof.
  induction n as [|n IH]; [reflexivity|].
  rewrite seq_S, map_app. cbn [map Nat.add]. rewrite <- IH. reflexivity.
Qed.

Lemma S_motoneurons_run (rs : RandomSource) (n : nat) :
  S_motoneurons (monitors (run_steps rs n))
  = flat_map (fun m => map (fun i => (m, i)) (moto_spikes (run_steps rs m)))
             (seq 0 n).
Proof.
  induction n as [|n IH]; [reflexivity|].
  rewrite seq_S, flat_map_app. cbn [flat_map Nat.add].
  rewrite app_nil_r, <- IH.
  simpl run_steps. rewrite S_motoneurons_step, clock_run. reflexivity.
Qed.

Lemma S_retina_run (rs : RandomSource) (n : nat) :
  S_retina (monitors (run_steps rs n))
  = flat_map (fun m => map (fun i => (m, i)) (retina_spikes (run_steps rs m)))
             (seq 0 n).
Proof.
  induction n as [|n IH]; [reflexivity|].
  rewrite seq_S, flat_map_app. cbn [flat_map Nat.add].
  rewrite app_nil_r, <- IH.
  simpl run_steps. rewrite S_retina_step, clock_run. reflexivity.
Qed.

(** C3: in the run whose stochastic drive is 0 at every tick (so that noise
    stays 0) and whose retinal potentials all start at 0 (the motoneurons
    start at 0 by construction), x_object is 0 after every number of ticks
    and no motoneuron spikes at any tick; over the whole run of 10 seconds
    the motoneuron spike monitor stays empty and every recorded x_object
    is 0. *)
Theorem C3_zero_drive_zero_spikes (rs : RandomSource) :
  (forall i : nat, (i < N)%nat -> rand rs i = 0) ->
  (forall m : nat, randn rs m = 0) ->
  (forall n : nat,
     Eye.noise (eye (run_steps rs n)) = 0 /\
     Eye.x_object (eye (run_steps rs n)) = 0 /\
     moto_spikes (run_steps rs n) = []) /\
  S_motoneurons (monitors (run rs)) = [] /\
  (forall a b c : R, In (a, b, c) (M (monitors (run rs))) -> c = 0).
Proof.
  intros Hrand Hz.
  pose proof (quiescent_run_eye rs Hrand Hz) as Heye.
  pose proof (quiescent_run_silent rs Hrand Hz) as Hsilent.
  split; [|split].
  - intros n. rewrite Heye. repeat split. apply Hsilent.
  - unfold run. rewrite S_motoneurons_run.
    induction (seq 0 (Z.to_nat 100000)) as [|m l IH]; [reflexivity|].
    cbn [flat_map]. rewrite Hsilent. exact IH.
  - intros a b c Hin. unfold run in Hin. rewrite M_run in Hin.
    apply in_map_iff in Hin as (m & Hm & _).
    unfold eye_sample in Hm. rewrite Heye in Hm.
    cbn [Eye.x Eye.x0 Eye.x_object] in Hm. congruence.
Qed.

Lemma C3_witness :
  Eye.x_object (eye (run_steps zero_source 1000)) = 0 /\
  moto_spikes (run_steps zero_source 1000) = [] /\
  S_motoneurons (monitors (run zero_source)) = [].
Proof.
  assert (Hrand : forall i : nat, (i < N)%nat -> rand zero_source i = 0)
    by reflexivity.
  assert (Hz : forall m : nat, randn zero_source m = 0) by reflexivity.
  pose proof (C3_zero_drive_zero_spikes zero_source Hrand Hz) as [Hn [HS _]].
  split; [apply (Hn 1000%nat)|]. split; [apply (Hn 1000%nat) | exact HS].
Defined.

(** ** Determinism *)

Lemma network_init_ext (rs1 rs2 : RandomSource) :
  (forall i : nat, (i < N)%nat -> rand rs1 i = rand rs2 i) ->
  network_init rs1 = network_init rs2.
Proof.
  intros Hrand. unfold network_init.
  assert (Hr : retina_init rs1 = retina_init rs2).
  { unfold retina_init. f_equal.
    apply map_ext_in. intros i Hi. apply in_seq in Hi. apply Hrand. lia. }
  rewrite Hr. reflexivity.
Qed.

Lemma run_steps_ext (rs1 rs2 : RandomSource) (n : nat) :
  (forall i : nat, (i < N)%nat -> rand rs1 i = rand rs2 i) ->
  (forall m : nat, (m < n)%nat -> randn rs1 m = randn rs2 m) ->
  run_steps rs1 n = run_steps rs2 n.
Proof.
  intros Hrand. induction n as [|n IH]; intros Hz.
  - apply network_init_ext. exact Hrand.
  - simpl run_steps. rewrite IH by (intros m Hm; apply Hz; lia).
    rewrite (Hz n) by lia. reflexivity.
Qed.

(** C8: two runs whose random sources give the same initial retinal draws
    and the same normal draw at every tick of the run end in the same
    network state; in particular the three monitors hold the same data: the
    same retinal and motoneuron spike trains (tick and unit index of every
    spike) and the same recorded (x, x0, x_object) at every tick.  The same
    holds after any common number of ticks. *)
Theorem C8_determinism (rs1 rs2 : RandomSource) :
  (forall i : nat, (i < N)%nat -> rand rs1 i = rand rs2 i) ->
  (forall m : nat, (m < Z.to_nat 100000)%nat -> randn rs1 m = randn rs2 m) ->
  run rs1 = run rs2 /\
  S_retina (monitors (run rs1)) = S_retina (monitors (run rs2)) /\
  S_motoneurons (monitors (run rs1)) = S_motoneurons (monitors (run rs2)) /\
  M (monitors (run rs1)) = M (monitors (run rs2)) /\
  (forall n : nat, (n <= Z.to_nat 100000)%nat ->
     run_steps rs1 n = run_steps rs2 n).
Proof.
  intros Hrand Hz.
  assert (Hn : forall n : nat, (n <= Z.to_nat 100000)%nat ->
                 run_steps rs1 n = run_steps rs2 n).
  { intros n Hle. apply run_steps_ext; [exact Hrand|].
    intros m Hm. apply Hz. lia. }
  assert (Hrun : run rs1 = run rs2) by (unfold run; apply Hn; lia).
  rewrite Hrun. repeat split; try reflexivity. exact Hn.
Qed.

Lemma C8_witness :
  run zero_source = run zero_then_one /\
  S_motoneurons (monitors (run zero_source))
  = S_motoneurons (monitors (run zero_then_one)).
Proof.
  assert (Hrand : forall i : nat, (i < N)%nat ->
                    rand zero_source i = rand zero_then_one i).
  { intros i Hi. cbn [rand zero_source zero_then_one].
    destruct (Nat.ltb_spec i N); [reflexivity | lia]. }
  assert (Hz : forall m : nat, (m < Z.to_nat 100000)%nat ->
                 randn zero_source m = randn zero_then_one m).
  { intros m Hm. cbn [randn zero_source zero_then_one].
    destruct (Nat.ltb_spec m (Z.to_nat 100000)); [reflexivity | lia]. }
  pose proof (C8_determinism zero_source zero_then_one Hrand Hz)
    as (H1 & _ & H3 & _).
  split; assumption.
Defined.

(** ** Bounds on the potentials *)

Lemma spiked_In (spikes : list nat) (i : nat) :
  spiked spikes i = true <-> In i spikes.
Proof.
  unfold spiked. rewrite existsb_exists. split.
  - intros (k & Hk & Heq). apply Nat.eqb_eq in Heq. subst k. exact Hk.
  - intros Hi. exists i. split; [exact Hi | apply Nat.eqb_refl].
Qed.

Lemma retina_v_updated_nonneg (s : Network) (k : nat) :
  0 <= retina_v s k -> 0 <= retina_v_updated s k.
Proof.
  intros Hv. unfold retina_v_updated, drive.
  pose proof (I_drive_pos (Eye.x_object (eye s)) (Eye.x (eye s))
                (x_neuron_of k)).
  pose proof decay_bounds. nra.
Qed.

Lemma retina_v_bounds_step (z : R) (s : Network) (k : nat) :
  well_formed s -> (k < N)%nat ->
  0 <= retina_v s k -> 0 <= retina_v (step z s) k <= 1.
Proof.
  intros Hwf Hk Hv. rewrite retina_v_step by assumption.
  destruct (spiked (retina_spikes s) k) eqn:Hs; [lra|].
  rewrite retina_spikes_spec in Hs by exact Hwf.
  destruct (Nat.ltb_spec k N); [|lia]. cbn [andb] in Hs.
  apply Rgtb_false in Hs.
  pose proof (retina_v_updated_nonneg s k Hv). lra.
Qed.

Lemma moto_v_nonneg_step (z : R) (s : Network) (j : nat) :
  well_formed s -> (j < 2)%nat ->
  0 <= moto_v s j -> 0 <= moto_v (step z s) j.
Proof.
  intros Hwf Hj Hv. rewrite moto_v_step by assumption.
  destruct (spiked (moto_spikes s) j); [lra|].
  pose proof (syn_input_nonneg (retina_spikes s) j).
  pose proof decay_pos. nra.
Qed.

Lemma potentials_run (rs : RandomSource) (n : nat) :
  (forall i : nat, (i < N)%nat -> 0 <= rand rs i <= 1) ->
  (forall k : nat, (k < N)%nat -> 0 <= retina_v (run_steps rs n) k <= 1) /\
  (forall j : nat, (j < 2)%nat -> 0 <= moto_v (run_steps rs n) j).
Proof.
  intros Hrand. induction n as [|n [IHr IHm]].
  - cbn [run_steps]. split.
    + intros k Hk. rewrite retina_v_init by exact Hk. apply Hrand, Hk.
    + intros j _. rewrite moto_v_init. lra.
  - pose proof (well_formed_run rs n) as Hwf. simpl run_steps. split.
    + intros k Hk. apply retina_v_bounds_step; try assumption.
      apply IHr, Hk.
    + intros j Hj. apply moto_v_nonneg_step; try assumption.
      apply IHm, Hj.
Qed.

(** ** Refractoriness *)

(** During the 49 ticks that follow a spike of motoneuron j the threshold
    condition carries [not_refractory = false]: no spike, and lastspike keeps
    the tick of the spike. *)
Lemma refractory_window (rs : RandomSource) (n j m : nat) :
  (j < 2)%nat -> In j (moto_spikes (run_steps rs n)) ->
  (1 <= m <= 50)%nat ->
  moto_lastspike (run_steps rs (n + m)) j = Z.of_nat n /\
  (m < 50 -> ~ In j (moto_spikes (run_steps rs (n + m))))%nat.
Proof.
  intros Hj Hspk Hm.
  assert (Hls : moto_lastspike (run_steps rs (n + m)) j = Z.of_nat n).
  { induction m as [|m IH]; [lia|].
    replace (n + S m)%nat with (S (n + m)) by lia. simpl run_steps.
    pose proof (well_formed_run rs (n + m)) as Hwf.
    rewrite moto_lastspike_step by assumption.
    rewrite clock_run.
    destruct (Nat.eq_dec m 0) as [->|Hm0].
    - rewrite Nat.add_0_r.
      apply spiked_In in Hspk. rewrite Hspk. reflexivity.
    - assert (IH' : moto_lastspike (run_steps rs (n + m)) j = Z.of_nat n)
        by (apply IH; lia).
      rewrite moto_spikes_spec by exact Hwf.
      rewrite IH', clock_run.
      replace (refractory_steps <=? Z.of_nat (n + m) - Z.of_nat n)%Z
        with false
        by (symmetry; apply Z.leb_gt; unfold refractory_steps; lia).
      rewrite !andb_false_r. reflexivity. }
  split; [exact Hls|].
  intros Hlt Hin. apply spiked_In in Hin.
  rewrite moto_spikes_spec in Hin by apply well_formed_run.
  rewrite Hls, clock_run in Hin.
  replace (refractory_steps <=? Z.of_nat (n + m) - Z.of_nat n)%Z
    with false in Hin
    by (symmetry; apply Z.leb_gt; unfold refractory_steps; lia).
  rewrite !andb_false_r in Hin. discriminate.
Qed.

(** ** One tick of a retinal unit, by cases *)

(** A unit whose potential is at most c <= 49/50 cannot reach threshold in
    one tick (the drive is at most 4, and 4*(1 - decay) <= 1/50). *)
Lemma retina_cold_step (z : R) (s : Network) (k : nat) (c : R) :
  well_formed s -> (k < N)%nat ->
  0 <= retina_v s k <= c -> c <= 49 / 50 ->
  spiked (retina_spikes s) k = false /\
  0 <= retina_v (step z s) k <= c + / 50.
Proof.
  intros Hwf Hk [Hv0 Hvc] Hc.
  assert (Hup : retina_v_updated s k <= c + / 50).
  { unfold retina_v_updated, drive.
    pose proof (I_drive_pos (Eye.x_object (eye s)) (Eye.x (eye s))
                  (x_neuron_of k)).
    pose proof (I_drive_le_gain (Eye.x_object (eye s)) (Eye.x (eye s))
                  (x_neuron_of k)) as HI. unfold gain in HI.
    pose proof decay_bounds. nra. }
  assert (Hs : spiked (retina_spikes s) k = false).
  { retina_fires Hwf.
    apply Rgtb_false. lra. }
  split; [exact Hs|].
  rewrite retina_v_step, Hs by assumption.
  pose proof (retina_v_updated_nonneg s k Hv0). lra.
Qed.

(** A unit whose drive is at most 1 cannot reach threshold either; its
    potential loses at most the factor decay. *)
Lemma retina_far_step (z : R) (s : Network) (k : nat) :
  well_formed s -> (k < N)%nat ->
  0 <= retina_v s k <= 1 -> drive s k <= 1 ->
  spiked (retina_spikes s) k = false /\
  retina_v s k * decay <= retina_v (step z s) k.
Proof.
  intros Hwf Hk [Hv0 Hv1] HI.
  assert (Hpos : 0 < drive s k) by apply I_drive_pos.
  pose proof decay_bounds as [Hd1 Hd2].
  assert (Hs : spiked (retina_spikes s) k = false).
  { retina_fires Hwf.
    apply Rgtb_false. unfold retina_v_updated. nra. }
  split; [exact Hs|].
  rewrite retina_v_step, Hs by assumption.
  unfold retina_v_updated. nra.
Qed.

(** A unit exactly under the target (drive = gain) with potential at least
    0.985 spikes. *)
Lemma retina_peak_step (s : Network) (k : nat) :
  well_formed s -> (k < N)%nat ->
  drive s k = gain -> 985 / 1000 < retina_v s k ->
  spiked (retina_spikes s) k = true.
Proof.
  intros Hwf Hk HI Hv.
  retina_fires Hwf.
  apply Rgtb_true. unfold retina_v_updated. rewrite HI. unfold gain.
  pose proof decay_bounds. nra.
Qed.

(** The drive is at most 1 when the target is at least 3/19 away from the
    preferred position, and at least 2.4 when it is within 3/50. *)
Lemma I_drive_far (xo xe xn : R) :
  3 / 19 <= Rabs (xo - xe - xn) -> I_drive xo xe xn <= 1.
Proof.
  intros Hfar. unfold I_drive, gain. rewrite width_val.
  set (u := ((xo - xe - xn) / / 10) ^ 2).
  assert (Hu : 900 / 361 <= u).
  { replace u with (100 * (xo - xe - xn) ^ 2) by (unfold u; field).
    assert (Hsq : (3 / 19) ^ 2 <= (xo - xe - xn) ^ 2).
    { rewrite <- (pow2_abs (xo - xe - xn)).
      apply pow_incr. lra. }
    lra. }
  pose proof (exp_ge_4 u Hu) as H4.
  rewrite exp_Ropp.
  assert (Hinv : / exp u <= / 4) by (apply Rinv_le_contravar; lra).
  lra.
Qed.

Lemma I_drive_near (xo xe xn : R) :
  Rabs (xo - xe - xn) <= 3 / 50 -> 12 / 5 <= I_drive xo xe xn.
Proof.
  intros Hnear.
  pose proof (I_drive_lower xo xe xn) as H. unfold gain in H.
  rewrite width_val in H.
  replace (((xo - xe - xn) / / 10) ^ 2) with (100 * (xo - xe - xn) ^ 2) in H
    by field.
  assert (Hsq : (xo - xe - xn) ^ 2 <= (3 / 50) ^ 2).
  { rewrite <- (pow2_abs (xo - xe - xn)).
    apply pow_incr. split; [apply Rabs_pos | exact Hnear]. }
  lra.
Qed.

Lemma syn_term_nonneg (spikes : list nat) (j k : nat) :
  (k < N)%nat -> 0 <= syn_term spikes j k.
Proof.
  intros Hk. unfold syn_term. pose proof (weight_of_bounds k Hk).
  destruct (spiked spikes k && (target_of (x_neuron_of k) =? j)%nat); lra.
Qed.

Lemma syn_input_ge_two (spikes : list nat) (j k1 k2 : nat) :
  (k1 < k2)%nat -> (k2 < N)%nat ->
  syn_term spikes j k1 + syn_term spikes j k2
  <= syn_input spikes sensorimotor_table j.
Proof.
  intros H12 H2. unfold sensorimotor_table.
  assert (Hgen : forall a n, (a + n <= N)%nat ->
    (if ((a <=? k1) && (k1 <? a + n))%nat then syn_term spikes j k1 else 0)
    + (if ((a <=? k2) && (k2 <? a + n))%nat then syn_term spikes j k2 else 0)
    <= syn_input spikes
         (map (fun i => mkSynapse i (target_of (x_neuron_of i))
                          (weight_of N (x_neuron_of i))) (seq a n)) j).
  { intros a n. revert a. induction n as [|n IH]; intros a Han.
    - simpl.
      destruct (Nat.leb_spec a k1), (Nat.ltb_spec k1 (a + 0)),
        (Nat.leb_spec a k2), (Nat.ltb_spec k2 (a + 0));
        cbn [andb]; try lia; lra.
    - cbn [seq map syn_input fold_right pre post w].
      fold (syn_input spikes
              (map (fun i => mkSynapse i (target_of (x_neuron_of i))
                               (weight_of N (x_neuron_of i)))
                   (seq (S a) n)) j).
      fold (syn_term spikes j a).
      specialize (IH (S a) ltac:(lia)).
      pose proof (syn_term_nonneg spikes j a ltac:(lia)) as Ha.
      destruct (Nat.eq_dec a k1) as [E1|E1];
        destruct (Nat.eq_dec a k2) as [E2|E2]; try lia;
        destruct (Nat.leb_spec (S a) k1), (Nat.ltb_spec k1 (S a + n)),
          (Nat.leb_spec (S a) k2), (Nat.ltb_spec k2 (S a + n)),
          (Nat.leb_spec a k1), (Nat.ltb_spec k1 (a + S n)),
          (Nat.leb_spec a k2), (Nat.ltb_spec k2 (a + S n));
        cbn [andb] in *; try lia; subst; lra. }
  specialize (Hgen 0%nat N ltac:(lia)).
  destruct (Nat.leb_spec 0 k1), (Nat.ltb_spec k1 (0 + N)),
    (Nat.leb_spec 0 k2), (Nat.ltb_spec k2 (0 + N));
    cbn [andb] in Hgen; try lia. exact Hgen.
Qed.

Lemma syn_input_zero (spikes : list nat) (j : nat) :
  (forall i : nat, (i < N)%nat -> target_of (x_neuron_of i) = j ->
     spiked spikes i = false) ->
  syn_input spikes sensorimotor_table j = 0.
Proof.
  intros Hnone. unfold sensorimotor_table.
  rewrite (syn_input_single _ _ _ j N).
  - destruct (Nat.ltb_spec N (0 + N)); [lia|].
    rewrite andb_false_r. reflexivity.
  - intros i Hi _.
    destruct (Nat.eqb_spec (target_of (x_neuron_of i)) j) as [Ht|Ht].
    + rewrite (Hnone i) by (try lia; exact Ht). reflexivity.
    + apply andb_false_r.
Qed.

(** ** A run in which a refractory motoneuron is driven above 1 *)

Lemma pursuit_S (t : nat) :
  pursuit (S t) = step (randn steered_source t) (pursuit t).
Proof. reflexivity. Qed.

Lemma pursuit_wf (t : nat) : well_formed (pursuit t).
Proof. apply well_formed_run. Qed.

Lemma steered_rand_range (i : nat) : 0 <= rand steered_source i <= 1.
Proof. cbn [rand steered_source]. destruct (hot i); lra. Qed.

Lemma pursuit_retina_range (t k : nat) :
  (k < N)%nat -> 0 <= retina_v (pursuit t) k <= 1.
Proof.
  intros Hk.
  apply (potentials_run steered_source t
           (fun i _ => steered_rand_range i)); exact Hk.
Qed.

Lemma pursuit_moto_nonneg (t j : nat) :
  (j < 2)%nat -> 0 <= moto_v (pursuit t) j.
Proof.
  intros Hj.
  apply (potentials_run steered_source t
           (fun i _ => steered_rand_range i)); exact Hj.
Qed.

Lemma noise_gain_nonzero : / sqrt tau_object * sqrt dt <> 0.
Proof.
  assert (H1 : 0 < sqrt tau_object)
    by (apply sqrt_lt_R0; unfold tau_object, ms; lra).
  assert (H2 : 0 < sqrt dt) by (apply sqrt_lt_R0; unfold dt; lra).
  assert (H3 : 0 < / sqrt tau_object) by (apply Rinv_0_lt_compat; exact H1).
  apply Rgt_not_eq. apply Rmult_lt_0_compat; assumption.
Qed.

(** The stimulus follows the plan. *)
Lemma pursuit_stimulus (t : nat) :
  Eye.noise (eye (pursuit t)) = noise_plan t /\
  Eye.x_object (eye (pursuit t)) = object_plan t.
Proof.
  induction t as [|t [IHn IHo]]; [split; reflexivity|].
  rewrite pursuit_S, eye_step by apply pursuit_wf.
  cbv zeta. cbn [Eye.noise Eye.x_object]. rewrite IHn, IHo.
  split.
  - cbn [randn steered_source].
    pose proof noise_gain_nonzero as Hc.
    set (c := / sqrt tau_object * sqrt dt) in *.
    field. split; [unfold tau_object, ms; lra | exact Hc].
  - replace (dt * ((noise_plan t - object_plan t) / tau_object))
      with ((noise_plan t - object_plan t) * (dt / tau_object))
      by (unfold Rdiv; ring).
    rewrite dt_over_tau_object.
    destruct t as [|[|[|[|t]]]]; cbn [noise_plan object_plan]; lra.
Qed.

(** Units that start (or restart) at 0 stay subthreshold for 49 ticks. *)
Lemma cold_run (rs : RandomSource) (t0 k u : nat) :
  (k < N)%nat -> retina_v (run_steps rs t0) k = 0 -> (u <= 49)%nat ->
  0 <= retina_v (run_steps rs (t0 + u)) k <= INR u / 50.
Proof.
  intros Hk H0. induction u as [|u IH]; intros Hu.
  - rewrite Nat.add_0_r, H0. simpl. lra.
  - replace (t0 + S u)%nat with (S (t0 + u)) by lia. simpl run_steps.
    rewrite S_INR.
    assert (Hu' : INR u <= 48).
    { replace 48 with (INR 48) by (simpl; lra). apply le_INR. lia. }
    pose proof (retina_cold_step (randn rs (t0 + u)) (run_steps rs (t0 + u))
                  k (INR u / 50) (well_formed_run rs (t0 + u)) Hk
                  (IH ltac:(lia)) ltac:(lra)) as [_ H].
    lra.
Qed.

Lemma cold_silent (rs : RandomSource) (t0 k u : nat) :
  (k < N)%nat -> retina_v (run_steps rs t0) k = 0 -> (u <= 48)%nat ->
  spiked (retina_spikes (run_steps rs (t0 + u))) k = false.
Proof.
  intros Hk H0 Hu.
  assert (Hu' : INR u <= 48).
  { replace 48 with (INR 48) by (simpl; lra). apply le_INR. lia. }
  apply (retina_cold_step 0 (run_steps rs (t0 + u)) k (INR u / 50)
           (well_formed_run rs (t0 + u)) Hk
           (cold_run rs t0 k u Hk H0 ltac:(lia)) ltac:(lra)).
Qed.

Lemma pursuit_cold_silent (t k : nat) :
  (k < N)%nat -> hot k = false -> (t <= 48)%nat ->
  spiked (retina_spikes (pursuit t)) k = false.
Proof.
  intros Hk Hhot Ht.
  apply (cold_silent steered_source 0 k t Hk); [|exact Ht].
  cbn [run_steps]. rewrite retina_v_init by exact Hk.
  cbn [rand steered_source]. rewrite Hhot. reflexivity.
Qed.

(** The left motoneuron receives nothing and stays at 0. *)
Lemma target_0_cold (i : nat) :
  (i < N)%nat -> target_of (x_neuron_of i) = 0%nat -> hot i = false.
Proof.
  intros Hi Ht.
  destruct (Nat.le_gt_cases i 9) as [H|H].
  - unfold hot.
    destruct (Nat.eqb_spec i 10), (Nat.eqb_spec i 16),
      (Nat.eqb_spec i 17), (Nat.eqb_spec i 19); try lia; reflexivity.
  - rewrite target_of_pos in Ht by (apply x_neuron_of_pos; lia). discriminate.
Qed.

Lemma pursuit_left_silent (t : nat) :
  (t <= 48)%nat ->
  moto_v (pursuit t) 0 = 0 /\ spiked (moto_spikes (pursuit t)) 0 = false.
Proof.
  intros Ht.
  assert (Hv : moto_v (pursuit t) 0 = 0).
  { induction t as [|t IH]; [apply moto_v_init|].
    rewrite pursuit_S, moto_v_step by (try apply pursuit_wf; lia).
    rewrite syn_input_zero.
    - rewrite IH by lia.
      destruct (spiked (moto_spikes (pursuit t)) 0); lra.
    - intros i Hi Htgt. apply pursuit_cold_silent; try assumption; try lia.
      apply target_0_cold; assumption. }
  split; [exact Hv|].
  rewrite moto_spikes_spec by apply pursuit_wf.
  rewrite Hv, Rmult_0_l.
  replace (Rgtb 0 1) with false by (symmetry; apply Rgtb_false; lra).
  reflexivity.
Qed.

(** Positions and synapses of the hot units. *)
Lemma x_neuron_hot :
  x_neuron_of 10 = 1 / 19 /\ x_neuron_of 16 = 13 / 19 /\
  x_neuron_of 17 = 15 / 19 /\ x_neuron_of 19 = 1.
Proof.
  rewrite !x_neuron_of_val.
  replace (INR 10) with 10 by (simpl; lra).
  replace (INR 16) with 16 by (simpl; lra).
  replace (INR 17) with 17 by (simpl; lra).
  replace (INR 19) with 19 by (simpl; lra).
  repeat split; lra.
Qed.

Lemma syn_term_right (spikes : list nat) (k : nat) (c : R) :
  x_neuron_of k = c -> 0 < c -> spiked spikes k = true ->
  syn_term spikes 1 k = c.
Proof.
  intros Hx Hc Hs. unfold syn_term.
  rewrite Hs, target_of_pos by (rewrite Hx; exact Hc).
  cbn [andb Nat.eqb]. rewrite weight_of_val, Hx. apply Rabs_right. lra.
Qed.

Lemma drive_pursuit (t k : nat) :
  drive (pursuit t) k
  = I_drive (object_plan t) (Eye.x (eye (pursuit t))) (x_neuron_of k).
Proof.
  unfold drive. rewrite (proj2 (pursuit_stimulus t)). reflexivity.
Qed.

Lemma pursuit_0_hot (k : nat) :
  (k < N)%nat -> hot k = true -> retina_v (pursuit 0) k = 999 / 1000.
Proof.
  intros Hk Hh. unfold pursuit. cbn [run_steps].
  rewrite retina_v_init by exact Hk.
  cbn [rand steered_source]. rewrite Hh. reflexivity.
Qed.

Lemma phase1_0 : phase1 0.
Proof.
  assert (Hm : moto_v (pursuit 0) 1 = 0) by apply moto_v_init.
  assert (H19 : (19 < N)%nat) by (unfold N; lia).
  assert (H17 : (17 < N)%nat) by (unfold N; lia).
  assert (H16 : (16 < N)%nat) by (unfold N; lia).
  assert (H10 : (10 < N)%nat) by (unfold N; lia).
  constructor.
  - reflexivity.
  - reflexivity.
  - reflexivity.
  - reflexivity.
  - intros _. rewrite Hm. lra.
  - rewrite Hm. cbn [m1_lo]. lra.
  - apply pursuit_0_hot; [exact H10 | reflexivity].
  - intros _. rewrite pursuit_0_hot by (try reflexivity; exact H19).
    simpl. lra.
  - intros H. lia.
  - rewrite pursuit_0_hot by (try reflexivity; exact H16). simpl. lra.
  - rewrite pursuit_0_hot by (try reflexivity; exact H17). simpl. lra.
Qed.

(** Units 16 and 17 are far from the target while it is at 0 or at 1. *)
Lemma phase1_far (t k : nat) :
  (t <= 3)%nat -> phase1 t -> (k = 16 \/ k = 17)%nat ->
  drive (pursuit t) k <= 1.
Proof.
  intros Ht Hp Hk. rewrite drive_pursuit, (p1_x t Hp).
  destruct x_neuron_hot as (_ & H16 & H17 & _).
  apply I_drive_far.
  destruct Hk as [-> | ->]; rewrite ?H16, ?H17;
    destruct t as [|[|[|[|t]]]]; try lia; cbn [object_plan];
    unfold Rabs; destruct (Rcase_abs _); lra.
Qed.

Lemma phase1_19_far (t : nat) :
  (t <= 1)%nat -> phase1 t -> drive (pursuit t) 19 <= 1.
Proof.
  intros Ht Hp. rewrite drive_pursuit, (p1_x t Hp).
  destruct x_neuron_hot as (_ & _ & _ & H19). rewrite H19.
  apply I_drive_far.
  destruct t as [|[|t]]; try lia; cbn [object_plan];
    unfold Rabs; destruct (Rcase_abs _); lra.
Qed.

Lemma hot_cases (i : nat) :
  hot i = true -> (i = 10 \/ i = 16 \/ i = 17 \/ i = 19)%nat.
Proof.
  unfold hot. intros H.
  destruct (Nat.eqb_spec i 10), (Nat.eqb_spec i 16),
    (Nat.eqb_spec i 17), (Nat.eqb_spec i 19); try lia; discriminate.
Qed.

(** Who stays silent during the first phase: every unit, except unit 10 at
    tick 0 and unit 19 at tick 2. *)
Lemma phase1_silent (t i : nat) :
  (t <= 3)%nat -> phase1 t -> (i < N)%nat ->
  (i = 10%nat -> (1 <= t)%nat) -> (i = 19%nat -> t <> 2%nat) ->
  spiked (retina_spikes (pursuit t)) i = false.
Proof.
  intros Ht Hp Hi H10 H19.
  destruct (hot i) eqn:Hhot.
  2:{ apply pursuit_cold_silent; try assumption; lia. }
  apply hot_cases in Hhot as [-> | [-> | [-> | ->]]].
  - specialize (H10 eq_refl).
    pose proof (p1_10 t Hp) as H. destruct t as [|t]; [lia|].
    replace (S t) with (1 + t)%nat by lia.
    apply (cold_silent steered_source 1 10 t Hi H). lia.
  - apply (retina_far_step 0 (pursuit t) 16 (pursuit_wf t) Hi
             (pursuit_retina_range t 16 Hi)).
    apply phase1_far; auto.
  - apply (retina_far_step 0 (pursuit t) 17 (pursuit_wf t) Hi
             (pursuit_retina_range t 17 Hi)).
    apply phase1_far; auto.
  - specialize (H19 eq_refl).
    destruct (Nat.eq_dec t 3) as [->|H3].
    + apply (cold_silent steered_source 3 19 0 Hi
               (p1_19_reset 3%nat Hp (Nat.le_refl 3))). lia.
    + apply (retina_far_step 0 (pursuit t) 19 (pursuit_wf t) Hi
               (pursuit_retina_range t 19 Hi)).
      apply phase1_19_far; [lia | exact Hp].
Qed.

Lemma moto_subthreshold (s : Network) (j : nat) :
  well_formed s -> 0 <= moto_v s j <= 1 ->
  spiked (moto_spikes s) j = false.
Proof.
  intros Hwf [H0 H1]. rewrite moto_spikes_spec by exact Hwf.
  replace (Rgtb (moto_v s j * decay) 1) with false.
  - rewrite andb_false_l, andb_false_r. reflexivity.
  - symmetry. apply Rgtb_false. pose proof decay_bounds. nra.
Qed.

Lemma pursuit_unit10_spikes : spiked (retina_spikes (pursuit 0)) 10 = true.
Proof.
  assert (H10 : (10 < N)%nat) by (unfold N; lia).
  rewrite retina_spikes_spec by apply pursuit_wf.
  destruct (Nat.ltb_spec 10 N); [|lia]. cbn [andb].
  apply Rgtb_true. unfold retina_v_updated.
  rewrite pursuit_0_hot by (try reflexivity; exact H10).
  rewrite drive_pursuit. cbn [object_plan].
  replace (Eye.x (eye (pursuit 0))) with 0 by reflexivity.
  pose proof drive_10_at_rest. pose proof decay_bounds.
  pose proof (I_drive_le_gain 0 0 (x_neuron_of 10)) as HI.
  unfold gain in HI. nra.
Qed.

Lemma pursuit_unit19_spikes :
  phase1 2 -> spiked (retina_spikes (pursuit 2)) 19 = true.
Proof.
  intros Hp.
  assert (H19 : (19 < N)%nat) by (unfold N; lia).
  apply retina_peak_step; [apply pursuit_wf | exact H19 | |].
  - rewrite drive_pursuit, (p1_x 2%nat Hp). cbn [object_plan].
    destruct x_neuron_hot as (_ & _ & _ & Hx). rewrite Hx.
    apply I_drive_peak. lra.
  - pose proof (p1_19 2%nat Hp (Nat.le_refl 2)) as H.
    simpl INR in H. lra.
Qed.

(** Input to the right motoneuron during the first phase. *)
Lemma phase1_input (t : nat) :
  (t <= 2)%nat -> phase1 t ->
  let input := syn_input (retina_spikes (pursuit t)) sensorimotor_table 1 in
  match t with
  | O => input = / 19
  | S O => input = 0
  | _ => 1 <= input
  end.
Proof.
  intros Ht Hp input. unfold input.
  destruct x_neuron_hot as (Hx10 & _ & _ & Hx19).
  destruct t as [|[|t]].
  - unfold sensorimotor_table.
    rewrite (syn_input_single _ _ _ 1 10).
    + rewrite pursuit_unit10_spikes.
      rewrite target_of_pos by (rewrite Hx10; lra).
      cbn [Nat.leb Nat.ltb Nat.add N andb Nat.eqb].
      rewrite weight_of_val, Hx10, Rabs_right; lra.
    + intros i Hi Hne.
      rewrite (phase1_silent 0 i) by (try assumption; lia). reflexivity.
  - apply syn_input_zero. intros i Hi _.
    apply phase1_silent; try assumption; lia.
  - assert (t = 0%nat) by lia. subst t.
    pose proof (syn_input_ge_two (retina_spikes (pursuit 2)) 1 18 19
                  ltac:(lia) ltac:(unfold N; lia)) as Hge.
    pose proof (syn_term_nonneg (retina_spikes (pursuit 2)) 1 18
                  ltac:(unfold N; lia)) as H18.
    rewrite (syn_term_right _ 19 1 Hx19 ltac:(lra)
               (pursuit_unit19_spikes Hp)) in Hge.
    lra.
Qed.

Lemma phase1_step (t : nat) : (t <= 2)%nat -> phase1 t -> phase1 (S t).
Proof.
  intros Ht Hp.
  pose proof (pursuit_wf t) as Hwf.
  pose proof decay_bounds as [Hd1 Hd2].
  assert (H16 : (16 < N)%nat) by (unfold N; lia).
  assert (H17 : (17 < N)%nat) by (unfold N; lia).
  assert (H19 : (19 < N)%nat) by (unfold N; lia).
  assert (H10 : (10 < N)%nat) by (unfold N; lia).
  assert (Hm0 : 0 <= moto_v (pursuit t) 1) by (apply pursuit_moto_nonneg; lia).
  assert (Hm1 : moto_v (pursuit t) 1 <= / 19) by (apply (p1_hi t Hp); lia).
  assert (Hs1 : spiked (moto_spikes (pursuit t)) 1 = false)
    by (apply moto_subthreshold; [exact Hwf | lra]).
  assert (Hs0 : spiked (moto_spikes (pursuit t)) 0 = false)
    by (apply pursuit_left_silent; lia).
  assert (Hv1 : moto_v (pursuit (S t)) 1
                = moto_v (pursuit t) 1 * decay
                  + syn_input (retina_spikes (pursuit t)) sensorimotor_table 1).
  { rewrite pursuit_S, moto_v_step, Hs1 by (try exact Hwf; lia).
    reflexivity. }
  pose proof (phase1_input t Ht Hp) as Hin. cbv zeta in Hin.
  assert (Hfar : forall k, (k = 16 \/ k = 17)%nat ->
            999 / 1000 * (1 - INR (S t) / 200) <= retina_v (pursuit (S t)) k).
  { intros k Hk.
    assert (Hkn : (k < N)%nat) by (destruct Hk; subst; assumption).
    assert (Hlo : 999 / 1000 * (1 - INR t / 200) <= retina_v (pursuit t) k)
      by (destruct Hk; subst; [apply (p1_16 t Hp) | apply (p1_17 t Hp)]).
    pose proof (retina_far_step (randn steered_source t) (pursuit t) k Hwf Hkn
                  (pursuit_retina_range t k Hkn)
                  (phase1_far t k ltac:(lia) Hp Hk)) as [_ Hstep].
    rewrite pursuit_S, S_INR.
    assert (Ht' : 0 <= INR t <= 2).
    { split; [apply pos_INR|].
      replace 2 with (INR 2) by (simpl; lra). apply le_INR. lia. }
    nra. }
  constructor.
  - rewrite pursuit_S, eye_step by exact Hwf. cbv zeta. cbn [Eye.x].
    rewrite (p1_x t Hp), (p1_vel t Hp). lra.
  - rewrite pursuit_S, eye_step by exact Hwf. cbv zeta. cbn [Eye.velocity].
    rewrite (p1_x t Hp), (p1_vel t Hp), (p1_x0 t Hp). lra.
  - rewrite pursuit_S, eye_step by exact Hwf. cbv zeta. cbn [Eye.x0].
    unfold x0_relaxed, muscle_input.
    rewrite (p1_x0 t Hp), Hs0, Hs1. unfold dt, tau_muscle, ms. lra.
  - rewrite pursuit_S, moto_lastspike_step, Hs1 by (try exact Hwf; lia).
    apply (p1_ls t Hp).
  - intros Hle. rewrite Hv1.
    destruct t as [|[|t]]; [| |lia].
    + rewrite Hin. replace (moto_v (pursuit 0) 1) with 0
        by (symmetry; apply moto_v_init). lra.
    + rewrite Hin. nra.
  - rewrite Hv1. pose proof (p1_lo t Hp) as Hlo.
    destruct t as [|[|[|t]]]; [| | |lia]; cbn [m1_lo] in *.
    + rewrite Hin. nra.
    + rewrite Hin. nra.
    + nra.
  - pose proof (p1_10 t Hp) as H. destruct t as [|t]; [|exact H].
    rewrite pursuit_S, retina_v_step by (try exact Hwf; exact H10).
    rewrite pursuit_unit10_spikes. reflexivity.
  - intros Hle.
    pose proof (retina_far_step (randn steered_source t) (pursuit t) 19 Hwf H19
                  (pursuit_retina_range t 19 H19)
                  (phase1_19_far t ltac:(lia) Hp)) as [_ Hstep].
    pose proof (p1_19 t Hp ltac:(lia)) as Hlo.
    rewrite pursuit_S, S_INR.
    assert (Ht' : 0 <= INR t <= 1).
    { split; [apply pos_INR|].
      replace 1 with (INR 1) by (simpl; lra). apply le_INR. lia. }
    nra.
  - intros Hge. assert (t = 2%nat) by lia. subst t.
    rewrite pursuit_S, retina_v_step by (try exact Hwf; exact H19).
    rewrite (pursuit_unit19_spikes Hp). reflexivity.
  - apply Hfar. left. reflexivity.
  - apply Hfar. right. reflexivity.
Qed.

Lemma phase1_3 : phase1 3.
Proof.
  apply (phase1_step 2); [lia|].
  apply (phase1_step 1); [lia|].
  apply (phase1_step 0); [lia|].
  exact phase1_0.
Qed.

(** Tick 3: the right motoneuron, above threshold and never refractory
    before, spikes. *)
Lemma pursuit_tick3_ready :
  1 < moto_v (pursuit 3) 1 * exp (- dt / taum) /\
  (refractory_steps <= Z.of_nat 3 - moto_lastspike (pursuit 3) 1)%Z.
Proof.
  pose proof phase1_3 as Hp. split.
  - pose proof (p1_lo 3%nat Hp) as Hlo. cbn [m1_lo] in Hlo.
    pose proof decay_bounds. fold decay. nra.
  - rewrite (p1_ls 3%nat Hp). unfold refractory_steps, never_spiked. lia.
Qed.

Lemma pursuit_moto_spikes_3 : moto_spikes (pursuit 3) = [1%nat].
Proof.
  destruct pursuit_tick3_ready as [Habove Hnr].
  rewrite moto_spikes_eq by apply pursuit_wf.
  apply filter_seq_single; [lia | |].
  - unfold pursuit at 2. rewrite clock_run.
    apply andb_true_iff. split.
    + apply Rgtb_true. exact Habove.
    + apply Z.leb_le. exact Hnr.
  - intros i Hi Hne. assert (i = 0%nat) by lia. subst i.
    rewrite (proj1 (pursuit_left_silent 3 ltac:(lia))), Rmult_0_l.
    replace (Rgtb 0 1) with false by (symmetry; apply Rgtb_false; lra).
    reflexivity.
Qed.

Lemma pursuit_moto_spike : In 1%nat (moto_spikes (pursuit 3)).
Proof. rewrite pursuit_moto_spikes_3. left. reflexivity. Qed.

Lemma pursuit_refractory (m : nat) :
  (1 <= m < 50)%nat ->
  spiked (moto_spikes (pursuit (3 + m))) 1 = false.
Proof.
  intros Hm. apply not_true_is_false. intros Hs. apply spiked_In in Hs.
  exact (proj2 (refractory_window steered_source 3 1 m ltac:(lia)
                  pursuit_moto_spike ltac:(lia)) ltac:(lia) Hs).
Qed.

Lemma alpha_beta_val : alpha = 400 /\ beta = 20.
Proof. unfold alpha, beta, ms. split; field. Qed.

Lemma phase2_0 : phase2 0 false false.
Proof.
  pose proof phase1_3 as Hp. pose proof (pursuit_wf 3) as Hwf.
  pose proof decay_bounds as [Hd1 Hd2].
  destruct alpha_beta_val as [Ha Hb].
  assert (Hs0 : spiked (moto_spikes (pursuit 3)) 0 = false)
    by (apply pursuit_left_silent; lia).
  assert (Hs1 : spiked (moto_spikes (pursuit 3)) 1 = true)
    by (apply spiked_In, pursuit_moto_spike).
  assert (Hfar : forall k, (k = 16 \/ k = 17)%nat ->
            979 / 1000 + 69 / 10000 * INR 0 <= retina_v (pursuit (4 + 0)) k).
  { intros k Hk.
    assert (Hkn : (k < N)%nat) by (unfold N; destruct Hk; subst; lia).
    assert (Hlo : 999 / 1000 * (1 - INR 3 / 200) <= retina_v (pursuit 3) k)
      by (destruct Hk; subst; [apply (p1_16 3%nat Hp) | apply (p1_17 3%nat Hp)]).
    pose proof (retina_far_step (randn steered_source 3) (pursuit 3) k Hwf Hkn
                  (pursuit_retina_range 3 k Hkn)
                  (phase1_far 3 k ltac:(lia) Hp Hk)) as [_ Hstep].
    cbn [Nat.add]. rewrite pursuit_S. simpl INR in *. nra. }
  constructor; cbn [Nat.add]; try (intros _; apply Hfar; auto).
  - rewrite pursuit_S, eye_step by exact Hwf. cbv zeta. cbn [Eye.x].
    rewrite (p1_x 3%nat Hp), (p1_vel 3%nat Hp). simpl INR. lra.
  - rewrite pursuit_S, eye_step by exact Hwf. cbv zeta. cbn [Eye.velocity].
    rewrite (p1_x 3%nat Hp), (p1_vel 3%nat Hp), (p1_x0 3%nat Hp).
    simpl INR. lra.
  - rewrite pursuit_S, eye_step by exact Hwf. cbv zeta. cbn [Eye.x0].
    unfold x0_relaxed, muscle_input.
    rewrite (p1_x0 3%nat Hp), Hs0, Hs1. unfold dt, tau_muscle, ms. lra.
  - simpl INR. pose proof (pursuit_moto_nonneg 4 1 ltac:(lia)). lra.
Qed.

Lemma phase2_near (u k : nat) (b16 b17 : bool) :
  (u <= 3)%nat -> phase2 u b16 b17 -> (k = 16 \/ k = 17)%nat ->
  12 / 5 <= drive (pursuit (4 + u)) k.
Proof.
  intros Hu Hp Hk. rewrite drive_pursuit. cbn [Nat.add object_plan].
  destruct x_neuron_hot as (_ & H16 & H17 & _).
  destruct (p2_x u b16 b17 Hp) as [Hx1 Hx2]. cbn [Nat.add] in Hx1, Hx2.
  assert (Hu' : 0 <= INR u <= 3).
  { split; [apply pos_INR|].
    replace 3 with (INR 3) by (simpl; lra). apply le_INR. lia. }
  apply I_drive_near.
  destruct Hk as [-> | ->]; rewrite ?H16, ?H17;
    unfold Rabs; destruct (Rcase_abs _); lra.
Qed.

Lemma phase2_step (u : nat) (b16 b17 : bool) :
  (u <= 3)%nat -> phase2 u b16 b17 ->
  phase2 (S u)
         (b16 || spiked (retina_spikes (pursuit (4 + u))) 16)
         (b17 || spiked (retina_spikes (pursuit (4 + u))) 17).
Proof.
  intros Hu Hp.
  set (s := pursuit (4 + u)).
  set (s16 := spiked (retina_spikes s) 16).
  set (s17 := spiked (retina_spikes s) 17).
  pose proof (pursuit_wf (4 + u)) as Hwf. fold s in Hwf.
  pose proof decay_bounds as [Hd1 Hd2].
  destruct alpha_beta_val as [Halpha Hbeta].
  destruct x_neuron_hot as (_ & Hx16 & Hx17 & _).
  assert (Hu' : 0 <= INR u <= 3).
  { split; [apply pos_INR|].
    replace 3 with (INR 3) by (simpl; lra). apply le_INR. lia. }
  assert (Hnext : pursuit (4 + S u) = step (randn steered_source (4 + u)) s).
  { replace (4 + S u)%nat with (S (4 + u)) by lia. apply pursuit_S. }
  assert (Hs0 : spiked (moto_spikes s) 0 = false)
    by (apply pursuit_left_silent; lia).
  assert (Hs1 : spiked (moto_spikes s) 1 = false).
  { unfold s. replace (4 + u)%nat with (3 + (1 + u))%nat by lia.
    apply pursuit_refractory. lia. }
  destruct (p2_x u b16 b17 Hp) as [Hx1 Hx2].
  destruct (p2_vel u b16 b17 Hp) as [Hv1 Hv2].
  destruct (p2_x0 u b16 b17 Hp) as [H01 H02].
  fold s in Hx1, Hx2, Hv1, Hv2, H01, H02.
  assert (Hhot : forall k b, (k = 16 \/ k = 17)%nat ->
            (b = false ->
             979 / 1000 + 69 / 10000 * INR u <= retina_v s k) ->
            b || spiked (retina_spikes s) k = false ->
            979 / 1000 + 69 / 10000 * INR (S u)
            <= retina_v (pursuit (4 + S u)) k).
  { intros k b Hk Hlo Hb.
    apply orb_false_iff in Hb as [Hb Hsk]. specialize (Hlo Hb).
    assert (Hkn : (k < N)%nat) by (unfold N; destruct Hk; subst; lia).
    pose proof (phase2_near u k b16 b17 Hu Hp Hk) as HI. fold s in HI.
    destruct (pursuit_retina_range (4 + u) k Hkn) as [_ Hle]. fold s in Hle.
    rewrite Hnext, retina_v_step, Hsk by assumption.
    unfold retina_v_updated. rewrite S_INR. nra. }
  constructor; rewrite ?Hnext, ?S_INR.
  - rewrite eye_step by exact Hwf. cbv zeta. cbn [Eye.x].
    unfold dt. lra.
  - rewrite eye_step by exact Hwf. cbv zeta. cbn [Eye.velocity].
    rewrite Halpha, Hbeta. unfold dt. lra.
  - rewrite eye_step by exact Hwf. cbv zeta. cbn [Eye.x0].
    unfold x0_relaxed, muscle_input. rewrite Hs0, Hs1.
    unfold dt, tau_muscle, ms. lra.
  - intros Hb16. rewrite <- Hnext, <- S_INR.
    apply (Hhot 16%nat b16); auto. apply (p2_16 u b16 b17 Hp).
  - intros Hb17. rewrite <- Hnext, <- S_INR.
    apply (Hhot 17%nat b17); auto. apply (p2_17 u b16 b17 Hp).
  - rewrite moto_v_step, Hs1 by (try exact Hwf; lia).
    pose proof (p2_m1 u b16 b17 Hp) as Hm. fold s in Hm.
    pose proof (syn_input_ge_two (retina_spikes s) 1 16 17
                  ltac:(lia) ltac:(unfold N; lia)) as Hge.
    assert (H16 : syn_term (retina_spikes s) 1 16
                  = if s16 then 13 / 19 else 0).
    { unfold s16. destruct (spiked (retina_spikes s) 16) eqn:E.
      - apply syn_term_right; [exact Hx16 | lra | exact E].
      - unfold syn_term. rewrite E. reflexivity. }
    assert (H17 : syn_term (retina_spikes s) 1 17
                  = if s17 then 15 / 19 else 0).
    { unfold s17. destruct (spiked (retina_spikes s) 17) eqn:E.
      - apply syn_term_right; [exact Hx17 | lra | exact E].
      - unfold syn_term. rewrite E. reflexivity. }
    rewrite H16, H17 in Hge.
    pose proof (pursuit_moto_nonneg (4 + u) 1 ltac:(lia)) as Hm0.
    fold s in Hm0.
    fold s16 s17.
    destruct b16, b17, s16, s17; cbn [orb]; nra.
Qed.

Lemma phase2_reached (u : nat) :
  (u <= 4)%nat -> exists b16 b17 : bool, phase2 u b16 b17.
Proof.
  induction u as [|u IH]; intros Hu.
  - exists false, false. exact phase2_0.
  - destruct (IH ltac:(lia)) as (b16 & b17 & Hp).
    eexists. eexists. apply (phase2_step u b16 b17); [lia | exact Hp].
Qed.

(** At tick 8 the right motoneuron, refractory since its spike at tick 3,
    has a potential above 1. *)
Lemma pursuit_above_threshold : 1 < moto_v (pursuit 8) 1.
Proof.
  destruct (phase2_reached 4 ltac:(lia)) as (b16 & b17 & Hp).
  assert (H16 : (16 < N)%nat) by (unfold N; lia).
  assert (H17 : (17 < N)%nat) by (unfold N; lia).
  pose proof (pursuit_retina_range 8 16 H16) as [_ Hv16].
  pose proof (pursuit_retina_range 8 17 H17) as [_ Hv17].
  pose proof (p2_16 4 b16 b17 Hp) as Hb16.
  pose proof (p2_17 4 b16 b17 Hp) as Hb17.
  pose proof (p2_m1 4 b16 b17 Hp) as Hm.
  cbn [Nat.add] in Hb16, Hb17, Hm. simpl INR in Hb16, Hb17, Hm.
  destruct b16; [|specialize (Hb16 eq_refl); lra].
  destruct b17; [|specialize (Hb17 eq_refl); lra].
  lra.
Qed.

Lemma pursuit_reset : moto_v (pursuit 4) 1 = 0.
Proof.
  rewrite pursuit_S, moto_v_step by (try apply pursuit_wf; lia).
  rewrite (proj2 (spiked_In _ _) pursuit_moto_spike). reflexivity.
Qed.

Lemma steered_rand_unit (i : nat) : 0 <= rand steered_source i < 1.
Proof. cbn [rand steered_source]. destruct (hot i); lra. Qed.

(** ** Motoneurons: reset and refractory window *)

(** C4 (as the code has it): a spike of motoneuron j at tick n resets its
    potential to 0 at that tick, and for the next 49 ticks (refractory = 5 ms
    = 50 ticks counted from the spike) the motoneuron cannot spike.  Its
    potential is not held during that window: at each of these ticks it
    decays by exp(-dt/taum) and receives the weights of the retinal spikes
    that arrive.  At the 50th tick the threshold applies again. *)
Theorem C4_refractory_blocks_spikes (rs : RandomSource) (n j : nat) :
  (j < 2)%nat -> In j (moto_spikes (run_steps rs n)) ->
  moto_v (run_steps rs (S n)) j = 0 /\
  (forall m : nat, (1 <= m < 50)%nat ->
     let s := run_steps rs (n + m) in
     ~ In j (moto_spikes s) /\
     moto_v (run_steps rs (S (n + m))) j
     = moto_v s j * exp (- dt / taum)
       + syn_input (retina_spikes s) (sensorimotor_synapses s) j) /\
  (In j (moto_spikes (run_steps rs (n + 50)))
   <-> 1 < moto_v (run_steps rs (n + 50)) j * exp (- dt / taum)).
Proof.
  intros Hj Hspk. split; [|split].
  - simpl run_steps.
    rewrite moto_v_step by (try apply well_formed_run; exact Hj).
    rewrite (proj2 (spiked_In _ _) Hspk). reflexivity.
  - intros m Hm s.
    pose proof (well_formed_run rs (n + m)) as Hwf. fold s in Hwf.
    destruct (refractory_window rs n j m Hj Hspk ltac:(lia)) as [_ Hno].
    specialize (Hno ltac:(lia)). fold s in Hno.
    split; [exact Hno|].
    simpl run_steps. fold s.
    rewrite moto_v_step by assumption.
    destruct (spiked (moto_spikes s) j) eqn:E.
    + apply spiked_In in E. contradiction.
    + rewrite (wf_ss s Hwf). reflexivity.
  - destruct (refractory_window rs n j 50 Hj Hspk ltac:(lia)) as [Hls _].
    rewrite <- spiked_In, moto_spikes_spec by apply well_formed_run.
    rewrite Hls, clock_run.
    destruct (Nat.ltb_spec j 2); [|lia].
    replace (refractory_steps <=? Z.of_nat (n + 50) - Z.of_nat n)%Z
      with true
      by (symmetry; apply Z.leb_le; unfold refractory_steps; lia).
    cbn [andb]. rewrite andb_true_r. fold decay. apply Rgtb_true.
Qed.

(** In the steered run the right motoneuron spikes at tick 3. *)
Lemma C4_witness :
  In 1%nat (moto_spikes (run_steps steered_source 3)) /\
  moto_v (run_steps steered_source 4) 1 = 0 /\
  ~ In 1%nat (moto_spikes (run_steps steered_source (3 + 5))).
Proof.
  assert (H1 : (1 < 2)%nat) by lia.
  pose proof (C4_refractory_blocks_spikes steered_source 3 1 H1
                pursuit_moto_spike) as (Hreset & Hwin & _).
  split; [exact pursuit_moto_spike|].
  split; [exact Hreset|].
  apply (Hwin 5%nat). lia.
Defined.

(** C4 as stated fails: in the run from [steered_source] (uniform draws in
    [0, 1)) the right motoneuron spikes at tick 3 and is reset to 0; five
    ticks later, 0.5 ms into its 5 ms refractory window, retinal units 16
    and 17 have spiked and its potential is above 1, not 0. *)
Lemma C4_counterexample :
  (forall i : nat, 0 <= rand steered_source i < 1) /\
  In 1%nat (moto_spikes (run_steps steered_source 3)) /\
  moto_v (run_steps steered_source 4) 1 = 0 /\
  moto_v (run_steps steered_source (3 + 5)) 1 <> 0 /\
  ~ (forall (rs : RandomSource) (n j m : nat),
       (j < 2)%nat -> In j (moto_spikes (run_steps rs n)) ->
       (1 <= m <= 50)%nat ->
       moto_v (run_steps rs (n + m)) j = 0).
Proof.
  pose proof pursuit_above_threshold as Habove. unfold pursuit in Habove.
  split; [exact steered_rand_unit|].
  split; [exact pursuit_moto_spike|].
  split; [exact pursuit_reset|].
  split.
  - cbn [Nat.add]. lra.
  - intros Hclaim.
    specialize (Hclaim steered_source 3%nat 1%nat 5%nat ltac:(lia)
                  pursuit_moto_spike ltac:(lia)).
    cbn [Nat.add] in Hclaim. lra.
Qed.

(** ** Range of the potentials *)

(** C5 (as the code has it): in every run whose initial retinal draws are
    in [0, 1), at every tick boundary every retinal potential is in [0, 1]
    and every motoneuron potential is at least 0.  A motoneuron potential
    is not bounded by 1: it is reset to 0 at tick n when, after decay, it
    exceeds 1 and the motoneuron is not refractory. *)
Theorem C5_potential_range (rs : RandomSource) (n : nat) :
  (forall i : nat, (i < N)%nat -> 0 <= rand rs i < 1) ->
  let s := run_steps rs n in
  (forall k : nat, (k < N)%nat -> 0 <= retina_v s k <= 1) /\
  (forall j : nat, (j < 2)%nat ->
     0 <= moto_v s j /\
     (1 < moto_v s j * exp (- dt / taum) ->
      (refractory_steps <= Z.of_nat n - moto_lastspike s j)%Z ->
      In j (moto_spikes s) /\ moto_v (run_steps rs (S n)) j = 0)).
Proof.
  intros Hrand s.
  assert (Hrand' : forall i : nat, (i < N)%nat -> 0 <= rand rs i <= 1).
  { intros i Hi. specialize (Hrand i Hi). lra. }
  destruct (potentials_run rs n Hrand') as [Hr Hm]. fold s in Hr, Hm.
  split; [exact Hr|].
  intros j Hj. split; [apply Hm, Hj|].
  intros Habove Hnr.
  pose proof (well_formed_run rs n) as Hwf. fold s in Hwf.
  assert (Hs : spiked (moto_spikes s) j = true).
  { rewrite moto_spikes_spec by exact Hwf.
    unfold s at 2. rewrite clock_run.
    destruct (Nat.ltb_spec j 2); [|lia].
    replace (Rgtb (moto_v s j * decay) 1) with true
      by (symmetry; apply Rgtb_true; exact Habove).
    replace (refractory_steps <=? Z.of_nat n - moto_lastspike s j)%Z
      with true by (symmetry; apply Z.leb_le; exact Hnr).
    reflexivity. }
  split; [apply spiked_In; exact Hs|].
  simpl run_steps. fold s.
  rewrite moto_v_step, Hs by assumption. reflexivity.
Qed.

(** In the steered run the right motoneuron is above threshold and not
    refractory at tick 3: it spikes and is reset. *)
Lemma C5_witness :
  (forall k : nat, (k < N)%nat ->
     0 <= retina_v (run_steps steered_source 3) k <= 1) /\
  0 <= moto_v (run_steps steered_source 3) 1 /\
  1 < moto_v (run_steps steered_source 3) 1 * exp (- dt / taum) /\
  In 1%nat (moto_spikes (run_steps steered_source 3)) /\
  moto_v (run_steps steered_source 4) 1 = 0.
Proof.
  pose proof (C5_potential_range steered_source 3
                (fun i _ => steered_rand_unit i)) as [Hr Hm].
  destruct (Hm 1%nat ltac:(lia)) as [Hm0 Hfire].
  destruct pursuit_tick3_ready as [Habove Hnr].
  split; [exact Hr|]. split; [exact Hm0|]. split; [exact Habove|].
  exact (Hfire Habove Hnr).
Defined.

(** C5 as stated fails: in the run from [steered_source] the right
    motoneuron has a potential above 1 at the boundary between ticks 7 and
    8, although it spikes (and is reset) neither at tick 7 nor at tick 8: it
    has been refractory since its spike at tick 3. *)
Lemma C5_counterexample :
  (forall i : nat, 0 <= rand steered_source i < 1) /\
  1 < moto_v (run_steps steered_source 8) 1 /\
  ~ In 1%nat (moto_spikes (run_steps steered_source 7)) /\
  ~ In 1%nat (moto_spikes (run_steps steered_source 8)).
Proof.
  split; [exact steered_rand_unit|].
  split; [exact pursuit_above_threshold|].
  split.
  - intros H. apply spiked_In in H.
    pose proof (pursuit_refractory 4 ltac:(lia)) as Hno.
    unfold pursuit in Hno. cbn [Nat.add] in Hno. congruence.
  - intros H. apply spiked_In in H.
    pose proof (pursuit_refractory 5 ltac:(lia)) as Hno.
    unfold pursuit in Hno. cbn [Nat.add] in Hno. congruence.
Qed.

(** ** Instances of the muscle coupling *)

(** In the steered run the right motoneuron is the only one to spike at
    tick 3, and x0 goes from its relaxed value to that value plus 1/2; in
    the run without drive no motoneuron spikes at the first tick and x0 only
    relaxes. *)
Lemma C2_witness :
  moto_spikes (run_steps steered_source 3) = [1%nat] /\
  Eye.x0 (eye (run_steps steered_source 4))
  = Eye.x0 (eye (run_steps steered_source 3))
    + dt * (- Eye.x0 (eye (run_steps steered_source 3)) / tau_muscle)
    + 1 / 2 /\
  moto_spikes (run_steps zero_source 0) = [] /\
  Eye.x0 (eye (run_steps zero_source 1))
  = Eye.x0 (eye (run_steps zero_source 0))
    + dt * (- Eye.x0 (eye (run_steps zero_source 0)) / tau_muscle).
Proof.
  assert (Hq : moto_spikes (run_steps zero_source 0) = []).
  { apply quiescent_moto_silent, quiescent_init. reflexivity. }
  pose proof (C2_muscle_coupling steered_source 3) as (_ & Hw1 & Hx0 & _).
  pose proof (C2_muscle_coupling zero_source 0) as (_ & _ & _ & _ & _ & Hrel).
  cbv zeta in Hw1, Hx0, Hrel.
  split; [exact pursuit_moto_spikes_3|].
  split; [|split; [exact Hq | exact (Hrel Hq)]].
  rewrite Hx0.
  replace (moto_spikes (run_steps steered_source 3)) with [1%nat]
    by (symmetry; exact pursuit_moto_spikes_3).
  cbn [map sum_list fold_right]. rewrite Hw1. lra.
Defined.

(** * Further properties of the model *)

(** ** What the monitors hold *)

Lemma train_of_tick (m j : nat) (l : list nat) :
  NoDup l ->
  map fst (filter (fun p : nat * nat => (snd p =? j)%nat)
                  (map (fun i => (m, i)) l))
  = if spiked l j then [m] else [].
Proof.
  unfold spiked. induction l as [|i l IH]; intros Hnd; [reflexivity|].
  inversion Hnd as [|? ? Hni Hnd']; subst.
  cbn [map filter snd existsb].
  rewrite (Nat.eqb_sym j i).
  destruct (Nat.eqb_spec i j) as [->|Hne].
  - cbn [map fst orb]. f_equal.
    rewrite IH by exact Hnd'.
    destruct (existsb (Nat.eqb j) l) eqn:E; [|reflexivity].
    apply existsb_exists in E as (i & Hi & Heq).
    apply Nat.eqb_eq in Heq. subst i. contradiction.
  - cbn [orb]. apply IH. exact Hnd'.
Qed.

Lemma spike_trains_flat_map (spikes_at : nat -> list nat) (j n : nat) :
  (forall m : nat, NoDup (spikes_at m)) ->
  SpikeMonitor.spike_trains
    (flat_map (fun m => map (fun i => (m, i)) (spikes_at m)) (seq 0 n)) j
  = ticks_where (fun m => spiked (spikes_at m) j) n.
Proof.
  intros Hnd. unfold SpikeMonitor.spike_trains, ticks_where.
  induction n as [|n IH]; [reflexivity|].
  rewrite seq_S, flat_map_app, !filter_app, map_app, IH.
  cbn [flat_map Nat.add filter]. rewrite app_nil_r.
  rewrite train_of_tick by apply Hnd.
  destruct (spiked (spikes_at n) j); reflexivity.
Qed.

Lemma moto_spikes_NoDup (s : Network) :
  well_formed s -> NoDup (moto_spikes s).
Proof.
  intros Hwf. destruct (moto_spikes_filter s Hwf) as [p ->].
  apply NoDup_filter, seq_NoDup.
Qed.

Lemma retina_spikes_NoDup (s : Network) :
  well_formed s -> NoDup (retina_spikes s).
Proof.
  intros Hwf. rewrite retina_spikes_eq by exact Hwf.
  apply NoDup_filter, seq_NoDup.
Qed.

Lemma moto_trains_run (rs : RandomSource) (n j : nat) :
  SpikeMonitor.spike_trains (S_motoneurons (monitors (run_steps rs n))) j
  = ticks_where (fun m => spiked (moto_spikes (run_steps rs m)) j) n.
Proof.
  rewrite S_motoneurons_run.
  apply (spike_trains_flat_map (fun m => moto_spikes (run_steps rs m))).
  intros m. apply moto_spikes_NoDup, well_formed_run.
Qed.

Lemma retina_trains_run (rs : RandomSource) (n k : nat) :
  SpikeMonitor.spike_trains (S_retina (monitors (run_steps rs n))) k
  = ticks_where (fun m => spiked (retina_spikes (run_steps rs m)) k) n.
Proof.
  rewrite S_retina_run.
  apply (spike_trains_flat_map (fun m => retina_spikes (run_steps rs m))).
  intros m. apply retina_spikes_NoDup, well_formed_run.
Qed.

Lemma count_spike_trains (mon : list (nat * nat)) (i : nat) :
  SpikeMonitor.count mon i = length (SpikeMonitor.spike_trains mon i).
Proof.
  unfold SpikeMonitor.count, SpikeMonitor.spike_trains.
  rewrite length_map. reflexivity.
Qed.

Lemma ticks_where_sorted (f : nat -> bool) (n : nat) :
  StronglySorted lt (ticks_where f n).
Proof.
  unfold ticks_where.
  assert (H : forall a m, StronglySorted lt (filter f (seq a m))).
  { intros a m. revert a. induction m as [|m IH]; intros a; [constructor|].
    cbn [seq filter]. destruct (f a); [|apply IH].
    constructor; [apply IH|].
    apply Forall_forall. intros t Ht.
    apply filter_In in Ht as [Ht _]. apply in_seq in Ht. lia. }
  apply H.
Qed.

(** ** Spacing of spikes and spike counts *)

(** A condition that, once true at a tick, is false at the 49 following
    ticks holds at most once in any window of 50 ticks. *)
Lemma sparse_window (f : nat -> bool) (a len : nat) :
  (forall t m : nat, f t = true -> (1 <= m < 50)%nat ->
     f (t + m)%nat = false) ->
  (len <= 50)%nat -> (length (filter f (seq a len)) <= 1)%nat.
Proof.
  intros Hsp. revert a. induction len as [|len IH]; intros a Hlen;
    [simpl; lia|].
  cbn [seq filter]. destruct (f a) eqn:Ha; [|apply IH; lia].
  cbn [length].
  assert (Hnone : filter f (seq (S a) len) = []).
  { assert (H : forall u b, (u <= len)%nat -> (b + u = S a + len)%nat ->
                  filter f (seq b u) = []).
    { induction u as [|u IHu]; intros b Hu Hb; [reflexivity|].
      cbn [seq filter].
      replace b with (a + (b - a))%nat by lia.
      rewrite (Hsp a (b - a)%nat Ha) by lia.
      replace (S (a + (b - a)))%nat with (S b) by lia.
      apply IHu; lia. }
    apply (H len (S a)); lia. }
  rewrite Hnone. simpl. lia.
Qed.

Lemma sparse_count (f : nat -> bool) (k : nat) :
  (forall t m : nat, f t = true -> (1 <= m < 50)%nat ->
     f (t + m)%nat = false) ->
  (length (ticks_where f (50 * k)) <= k)%nat.
Proof.
  intros Hsp. unfold ticks_where. induction k as [|k IH]; [simpl; lia|].
  replace (50 * S k)%nat with (50 * k + 50)%nat by lia.
  rewrite seq_app, filter_app, length_app. cbn [Nat.add].
  pose proof (sparse_window f (50 * k) 50 Hsp ltac:(lia)). lia.
Qed.

Lemma run_length : Z.to_nat 100000 = (50 * 2000)%nat.
Proof. reflexivity. Qed.

Lemma moto_sparse (rs : RandomSource) (j t m : nat) :
  spiked (moto_spikes (run_steps rs t)) j = true -> (1 <= m < 50)%nat ->
  spiked (moto_spikes (run_steps rs (t + m))) j = false.
Proof.
  intros Hs Hm.
  assert (Hj : (j < 2)%nat).
  { rewrite moto_spikes_spec in Hs by apply well_formed_run.
    destruct (Nat.ltb_spec j 2); [assumption | discriminate]. }
  apply not_true_is_false. intros Hs'.
  apply spiked_In in Hs, Hs'.
  exact (proj2 (refractory_window rs t j m Hj Hs ltac:(lia)) ltac:(lia) Hs').
Qed.

Lemma retina_sparse (rs : RandomSource) (k t m : nat) :
  spiked (retina_spikes (run_steps rs t)) k = true -> (1 <= m < 50)%nat ->
  spiked (retina_spikes (run_steps rs (t + m))) k = false.
Proof.
  intros Hs Hm.
  pose proof (well_formed_run rs t) as Hwf.
  assert (Hk : (k < N)%nat).
  { rewrite retina_spikes_spec in Hs by exact Hwf.
    destruct (Nat.ltb_spec k N); [assumption | discriminate]. }
  assert (H0 : retina_v (run_steps rs (S t)) k = 0).
  { simpl run_steps. rewrite retina_v_step, Hs by assumption. reflexivity. }
  replace (t + m)%nat with (S t + (m - 1))%nat by lia.
  apply cold_silent; [exact Hk | exact H0 | lia].
Qed.

(** X1: the state monitor holds one sample per tick.  After n ticks M has n
    entries, entry m being (x, x0, x_object) of the eye at the start of tick
    m, before the update of that tick; the first entry of a run is therefore
    (0, 0, 0), and the run of 10 seconds records 100000 samples. *)
Theorem X1_state_monitor_samples (rs : RandomSource) (n : nat) :
  length (M (monitors (run_steps rs n))) = n /\
  (forall m : nat, (m < n)%nat ->
     nth m (M (monitors (run_steps rs n))) (0, 0, 0)
     = (Eye.x (eye (run_steps rs m)), Eye.x0 (eye (run_steps rs m)),
        Eye.x_object (eye (run_steps rs m)))) /\
  ((0 < n)%nat -> nth 0 (M (monitors (run_steps rs n))) (1, 1, 1) = (0, 0, 0)) /\
  length (M (monitors (run rs))) = Z.to_nat 100000.
Proof.
  assert (Hlen : forall k, length (M (monitors (run_steps rs k))) = k).
  { intros k. rewrite M_run, length_map, length_seq. reflexivity. }
  assert (Hnth : forall m d, (m < n)%nat ->
            nth m (M (monitors (run_steps rs n))) d
            = eye_sample (run_steps rs m)).
  { intros m d Hm. rewrite M_run.
    rewrite (nth_indep _ d (eye_sample (run_steps rs 0)))
      by (rewrite length_map, length_seq; exact Hm).
    rewrite (map_nth (fun m => eye_sample (run_steps rs m)) (seq 0 n) 0%nat m).
    rewrite seq_nth by exact Hm. reflexivity. }
  split; [apply Hlen|]. split; [|split].
  - intros m Hm. rewrite Hnth by exact Hm. reflexivity.
  - intros Hn. rewrite Hnth by exact Hn. reflexivity.
  - unfold run. apply Hlen.
Qed.

Lemma X1_witness :
  nth 3 (M (monitors (run_steps steered_source 5))) (0, 0, 0)
  = (Eye.x (eye (run_steps steered_source 3)),
     Eye.x0 (eye (run_steps steered_source 3)),
     Eye.x_object (eye (run_steps steered_source 3))).
Proof.
  apply (proj1 (proj2 (X1_state_monitor_samples steered_source 5))). lia.
Defined.

(** X2: the spike monitors hold exactly the spikes of the ticks run so far.
    (t, i) is in S_motoneurons after n ticks iff t < n and motoneuron i
    spiked at tick t, and then i < 2; likewise for S_retina with i < N.  For
    each unit, spike_trains()[i] is the strictly increasing list of the
    ticks at which it spiked, and count[i] is its length, so the time and
    ordinate arrays of the raster plot have equal lengths. *)
Theorem X2_spike_monitors (rs : RandomSource) (n : nat) :
  let Sm := S_motoneurons (monitors (run_steps rs n)) in
  let Sr := S_retina (monitors (run_steps rs n)) in
  (forall t i : nat,
     In (t, i) Sm <-> (t < n)%nat /\ In i (moto_spikes (run_steps rs t))) /\
  (forall t i : nat,
     In (t, i) Sr <-> (t < n)%nat /\ In i (retina_spikes (run_steps rs t))) /\
  (forall t i : nat, In (t, i) Sm -> (i < 2)%nat) /\
  (forall t i : nat, In (t, i) Sr -> (i < N)%nat) /\
  (forall i : nat,
     SpikeMonitor.spike_trains Sm i
     = ticks_where (fun t => spiked (moto_spikes (run_steps rs t)) i) n /\
     StronglySorted lt (SpikeMonitor.spike_trains Sm i) /\
     SpikeMonitor.count Sm i = length (SpikeMonitor.spike_trains Sm i)) /\
  (forall i : nat,
     SpikeMonitor.spike_trains Sr i
     = ticks_where (fun t => spiked (retina_spikes (run_steps rs t)) i) n /\
     StronglySorted lt (SpikeMonitor.spike_trains Sr i) /\
     SpikeMonitor.count Sr i = length (SpikeMonitor.spike_trains Sr i)).
Proof.
  intros Sm Sr.
  assert (Hmem : forall (spikes_at : nat -> list nat) t i,
            In (t, i) (flat_map (fun m => map (fun i => (m, i)) (spikes_at m))
                                (seq 0 n))
            <-> (t < n)%nat /\ In i (spikes_at t)).
  { intros spikes_at t i. rewrite in_flat_map. split.
    - intros (m & Hm & Hin). apply in_seq in Hm.
      apply in_map_iff in Hin as (i' & Heq & Hi').
      inversion Heq; subst. split; [lia | exact Hi'].
    - intros [Ht Hi]. exists t. split; [apply in_seq; lia|].
      apply in_map_iff. exists i. split; [reflexivity | exact Hi]. }
  assert (HSm : forall t i, In (t, i) Sm
                  <-> (t < n)%nat /\ In i (moto_spikes (run_steps rs t))).
  { intros t i. unfold Sm. rewrite S_motoneurons_run.
    apply (Hmem (fun m => moto_spikes (run_steps rs m))). }
  assert (HSr : forall t i, In (t, i) Sr
                  <-> (t < n)%nat /\ In i (retina_spikes (run_steps rs t))).
  { intros t i. unfold Sr. rewrite S_retina_run.
    apply (Hmem (fun m => retina_spikes (run_steps rs m))). }
  split; [exact HSm|]. split; [exact HSr|].
  split; [|split; [|split]].
  - intros t i Hin. apply HSm in Hin as [_ Hi].
    apply spiked_In in Hi.
    rewrite moto_spikes_spec in Hi by apply well_formed_run.
    destruct (Nat.ltb_spec i 2); [assumption | discriminate].
  - intros t i Hin. apply HSr in Hin as [_ Hi].
    apply spiked_In in Hi.
    rewrite retina_spikes_spec in Hi by apply well_formed_run.
    destruct (Nat.ltb_spec i N); [assumption | discriminate].
  - intros i. unfold Sm. rewrite moto_trains_run.
    split; [reflexivity|]. split; [apply ticks_where_sorted|].
    rewrite count_spike_trains, moto_trains_run. reflexivity.
  - intros i. unfold Sr. rewrite retina_trains_run.
    split; [reflexivity|]. split; [apply ticks_where_sorted|].
    rewrite count_spike_trains, retina_trains_run. reflexivity.
Qed.

(** The spike of the right motoneuron at tick 3 of the steered run is
    recorded, with its tick. *)
Lemma X2_witness :
  In (3%nat, 1%nat) (S_motoneurons (monitors (run_steps steered_source 8))).
Proof.
  apply (proj1 (X2_spike_monitors steered_source 8)).
  split; [lia | exact pursuit_moto_spike].
Defined.

(** X3: a motoneuron spikes at most once in any 50 consecutive ticks
    (5 ms), so after 50*k ticks its recorded spike count is at most k; over
    the run of 10 seconds count[j] <= 2000 for each motoneuron. *)
Theorem X3_motoneuron_spike_count (rs : RandomSource) (j : nat) :
  (forall a len : nat, (len <= 50)%nat ->
     (length (filter (fun t => spiked (moto_spikes (run_steps rs t)) j)
                     (seq a len)) <= 1)%nat) /\
  (forall k : nat,
     (SpikeMonitor.count (S_motoneurons (monitors (run_steps rs (50 * k)))) j
      <= k)%nat) /\
  (SpikeMonitor.count (S_motoneurons (monitors (run rs))) j <= 2000)%nat.
Proof.
  pose proof (moto_sparse rs j) as Hsp.
  assert (Hk : forall k : nat,
     (SpikeMonitor.count (S_motoneurons (monitors (run_steps rs (50 * k)))) j
      <= k)%nat).
  { intros k. rewrite count_spike_trains, moto_trains_run.
    apply (sparse_count
             (fun t => spiked (moto_spikes (run_steps rs t)) j) k Hsp). }
  split; [|split].
  - intros a len Hlen.
    apply (sparse_window
             (fun t => spiked (moto_spikes (run_steps rs t)) j) a len Hsp Hlen).
  - exact Hk.
  - unfold run. rewrite run_length. apply Hk.
Qed.

(** X4: a retinal unit that spikes at tick t is reset to 0 and, the drive
    being at most gain = 4, cannot reach threshold again during the next 49
    ticks: retinal units have no declared refractory period but never spike
    twice within 5 ms, and count[k] <= 2000 over the run of 10 seconds. *)
Theorem X4_retina_spike_spacing (rs : RandomSource) (k t : nat) :
  In k (retina_spikes (run_steps rs t)) ->
  retina_v (run_steps rs (S t)) k = 0 /\
  (forall m : nat, (1 <= m < 50)%nat ->
     ~ In k (retina_spikes (run_steps rs (t + m)))) /\
  (SpikeMonitor.count (S_retina (monitors (run rs))) k <= 2000)%nat.
Proof.
  intros Hin. apply spiked_In in Hin.
  pose proof (well_formed_run rs t) as Hwf.
  assert (Hk : (k < N)%nat).
  { rewrite retina_spikes_spec in Hin by exact Hwf.
    destruct (Nat.ltb_spec k N); [assumption | discriminate]. }
  split; [|split].
  - simpl run_steps. rewrite retina_v_step, Hin by assumption. reflexivity.
  - intros m Hm Hs. apply spiked_In in Hs.
    rewrite (retina_sparse rs k t m Hin Hm) in Hs. discriminate.
  - unfold run. rewrite run_length, count_spike_trains, retina_trains_run.
    apply (sparse_count
             (fun t => spiked (retina_spikes (run_steps rs t)) k) 2000
             (retina_sparse rs k)).
Qed.

Lemma X4_witness :
  In 10%nat (retina_spikes (run_steps steered_source 0)) /\
  retina_v (run_steps steered_source 1) 10 = 0 /\
  ~ In 10%nat (retina_spikes (run_steps steered_source (0 + 7))).
Proof.
  assert (Hin : In 10%nat (retina_spikes (run_steps steered_source 0)))
    by (apply spiked_In; exact pursuit_unit10_spikes).
  pose proof (X4_retina_spike_spacing steered_source 10 0 Hin)
    as (H0 & Hno & _).
  split; [exact Hin|]. split; [exact H0|]. apply Hno. lia.
Defined.

(** ** The visual target *)

Lemma stimulus_step (z : R) (s : Network) :
  well_formed s ->
  Eye.noise (eye (step z s))
  = Eye.noise (eye s) + dt * (- Eye.noise (eye s) / tau_object)
    + / sqrt tau_object * sqrt dt * z /\
  Eye.x_object (eye (step z s))
  = Eye.x_object (eye s)
    + (Eye.noise (eye s) - Eye.x_object (eye s)) / 5000.
Proof.
  intros Hwf. rewrite eye_step by exact Hwf. cbv zeta.
  cbn [Eye.noise Eye.x_object]. split; [reflexivity|].
  replace (dt * ((Eye.noise (eye s) - Eye.x_object (eye s)) / tau_object))
    with ((Eye.noise (eye s) - Eye.x_object (eye s)) * (dt / tau_object))
    by (unfold Rdiv; ring).
  rewrite dt_over_tau_object. lra.
Qed.

Lemma stimulus_ext (rs1 rs2 : RandomSource) (n : nat) :
  (forall m : nat, (m < n)%nat -> randn rs1 m = randn rs2 m) ->
  Eye.noise (eye (run_steps rs1 n)) = Eye.noise (eye (run_steps rs2 n)) /\
  Eye.x_object (eye (run_steps rs1 n))
  = Eye.x_object (eye (run_steps rs2 n)).
Proof.
  induction n as [|n IH]; intros Hz; [split; reflexivity|].
  destruct (IH ltac:(intros m Hm; apply Hz; lia)) as [IHn IHo].
  simpl run_steps.
  destruct (stimulus_step (randn rs1 n) (run_steps rs1 n)
              (well_formed_run rs1 n)) as [-> ->].
  destruct (stimulus_step (randn rs2 n) (run_steps rs2 n)
              (well_formed_run rs2 n)) as [-> ->].
  rewrite IHn, IHo, (Hz n) by lia. split; reflexivity.
Qed.

(** X5: the target is not influenced by the network.  noise and x_object
    after n ticks depend only on the normal draws of the ticks before n:
    two runs with the same normal draws have the same noise, the same
    x_object and the same recorded x_object trace, whatever the initial
    retinal potentials (and hence whatever the spikes and eye movements). *)
Theorem X5_target_autonomous (rs1 rs2 : RandomSource) (n : nat) :
  (forall m : nat, (m < n)%nat -> randn rs1 m = randn rs2 m) ->
  Eye.noise (eye (run_steps rs1 n)) = Eye.noise (eye (run_steps rs2 n)) /\
  Eye.x_object (eye (run_steps rs1 n))
  = Eye.x_object (eye (run_steps rs2 n)) /\
  map snd (M (monitors (run_steps rs1 n)))
  = map snd (M (monitors (run_steps rs2 n))).
Proof.
  intros Hz.
  destruct (stimulus_ext rs1 rs2 n Hz) as [Hn Ho].
  split; [exact Hn|]. split; [exact Ho|].
  rewrite !M_run, !map_map. apply map_ext_in.
  intros m Hm. apply in_seq in Hm. unfold eye_sample. cbn [snd].
  apply (stimulus_ext rs1 rs2 m). intros m' Hm'. apply Hz. lia.
Qed.

(** [zero_source] and [source_10] share their normal draws and differ in
    the initial potential of unit 10. *)
Lemma X5_witness :
  rand zero_source 10 <> rand source_10 10 /\
  Eye.x_object (eye (run_steps zero_source 300))
  = Eye.x_object (eye (run_steps source_10 300)).
Proof.
  assert (Hz : forall m : nat, (m < 300)%nat ->
                 randn zero_source m = randn source_10 m) by reflexivity.
  split.
  - cbn [rand zero_source source_10 Nat.eqb]. lra.
  - exact (proj1 (proj2 (X5_target_autonomous zero_source source_10 300 Hz))).
Defined.

(** X6: x_object is a running average of noise (each tick moves it 1/5000
    of the way toward noise), so it never leaves a symmetric range that
    noise has stayed in. *)
Theorem X6_target_within_noise_range (rs : RandomSource) (n : nat) (B : R) :
  0 <= B ->
  (forall m : nat, (m < n)%nat ->
     - B <= Eye.noise (eye (run_steps rs m)) <= B) ->
  - B <= Eye.x_object (eye (run_steps rs n)) <= B.
Proof.
  intros HB. induction n as [|n IH]; intros Hnoise.
  - cbn [run_steps network_init eye eye_init Eye.x_object]. lra.
  - simpl run_steps.
    destruct (stimulus_step (randn rs n) (run_steps rs n)
                (well_formed_run rs n)) as [_ ->].
    pose proof (IH ltac:(intros m Hm; apply Hnoise; lia)).
    pose proof (Hnoise n ltac:(lia)). lra.
Qed.

Lemma X6_witness :
  - 5000 <= Eye.x_object (eye (run_steps steered_source 8)) <= 5000.
Proof.
  assert (HB : 0 <= 5000) by lra.
  assert (Hnoise : forall m : nat, (m < 8)%nat ->
            - 5000 <= Eye.noise (eye (run_steps steered_source m)) <= 5000).
  { intros m Hm. fold (pursuit m). rewrite (proj1 (pursuit_stimulus m)).
    destruct m as [|[|[|[|m]]]]; cbn [noise_plan]; lra. }
  exact (X6_target_within_noise_range steered_source 8 5000 HB Hnoise).
Defined.

(** ** Receptive fields *)

Lemma sqr_lt_abs (a b : R) : Rabs a < Rabs b -> a ^ 2 < b ^ 2.
Proof.
  intros H. rewrite <- (pow2_abs a), <- (pow2_abs b).
  pose proof (Rabs_pos a). nra.
Qed.

(** X7: the drive depends on the target only through the distance
    |x_object - x_eye - x_neuron| and strictly decreases with it; it is
    positive and at most gain.  Of two units, the one nearer to the target
    has the larger drive. *)
Theorem X7_tuning_curve (xo xe xn1 xn2 : R) :
  Rabs (xo - xe - xn1) < Rabs (xo - xe - xn2) ->
  I_drive xo xe xn2 < I_drive xo xe xn1 /\
  0 < I_drive xo xe xn2 /\ I_drive xo xe xn1 <= gain /\
  (forall d : R, I_drive xo xe (xo - xe - d) = I_drive xo xe (xo - xe + d)).
Proof.
  intros Hlt. split; [|split; [|split]].
  - unfold I_drive, gain. rewrite width_val.
    apply Rmult_lt_compat_l; [lra|]. apply exp_increasing.
    pose proof (sqr_lt_abs _ _ Hlt) as Hsq.
    replace (((xo - xe - xn2) / / 10) ^ 2)
      with (100 * (xo - xe - xn2) ^ 2) by field.
    replace (((xo - xe - xn1) / / 10) ^ 2)
      with (100 * (xo - xe - xn1) ^ 2) by field.
    lra.
  - apply I_drive_pos.
  - apply I_drive_le_gain.
  - intros d. unfold I_drive. f_equal. f_equal. f_equal. rewrite width_val.
    field.
Qed.

(** A target at 0.5: the unit at 0.4 is nearer than the unit at 0.7. *)
Lemma X7_witness :
  I_drive (1 / 2) 0 (7 / 10) < I_drive (1 / 2) 0 (4 / 10).
Proof.
  assert (H : Rabs (1 / 2 - 0 - 4 / 10) < Rabs (1 / 2 - 0 - 7 / 10)).
  { rewrite Rabs_right by lra. rewrite Rabs_left by lra. lra. }
  exact (proj1 (X7_tuning_curve (1 / 2) 0 (4 / 10) (7 / 10) H)).
Defined.

Lemma retina_spike_near (rs : RandomSource) (n k : nat) :
  (forall i : nat, (i < N)%nat -> 0 <= rand rs i < 1) ->
  spiked (retina_spikes (run_steps rs n)) k = true ->
  (k < N)%nat /\
  Rabs (Eye.x_object (eye (run_steps rs n)) - Eye.x (eye (run_steps rs n))
        - x_neuron_of k) < 3 / 19.
Proof.
  intros Hrand Hs.
  pose proof (well_formed_run rs n) as Hwf.
  assert (Hk : (k < N)%nat).
  { rewrite retina_spikes_spec in Hs by exact Hwf.
    destruct (Nat.ltb_spec k N); [assumption | discriminate]. }
  split; [exact Hk|].
  apply Rnot_le_lt. intros Hfar.
  assert (Hrand' : forall i : nat, (i < N)%nat -> 0 <= rand rs i <= 1).
  { intros i Hi. specialize (Hrand i Hi). lra. }
  destruct (potentials_run rs n Hrand') as [Hr _].
  destruct (retina_far_step 0 (run_steps rs n) k Hwf Hk (Hr k Hk)
              (I_drive_far _ _ _ Hfar)) as [Hno _].
  rewrite Hno in Hs. discriminate.
Qed.

(** X8: only units within 3/19 of the target (relative to the eye) can
    spike: at every tick of a run that starts with potentials in [0, 1), a
    retinal spike comes from a unit whose preferred position is less than
    3/19 away from x_object - x_eye; two units that spike at the same tick
    are at most 2 indices apart, so at most three neighbouring units spike
    at any tick. *)
Theorem X8_retinal_spikes_are_local (rs : RandomSource) (n k1 k2 : nat) :
  (forall i : nat, (i < N)%nat -> 0 <= rand rs i < 1) ->
  In k1 (retina_spikes (run_steps rs n)) ->
  In k2 (retina_spikes (run_steps rs n)) ->
  Rabs (Eye.x_object (eye (run_steps rs n)) - Eye.x (eye (run_steps rs n))
        - x_neuron_of k1) < 3 / 19 /\
  (k1 <= k2 + 2)%nat /\ (k2 <= k1 + 2)%nat.
Proof.
  intros Hrand H1 H2. apply spiked_In in H1, H2.
  destruct (retina_spike_near rs n k1 Hrand H1) as [_ Hn1].
  destruct (retina_spike_near rs n k2 Hrand H2) as [_ Hn2].
  split; [exact Hn1|].
  rewrite !x_neuron_of_val in *.
  set (c := Eye.x_object (eye (run_steps rs n))
            - Eye.x (eye (run_steps rs n))) in *.
  apply Rabs_def2 in Hn1, Hn2.
  split.
  - destruct (Nat.le_gt_cases k1 (k2 + 2)) as [H|H]; [exact H|].
    assert (Hge : (k2 + 3 <= k1)%nat) by lia.
    apply le_INR in Hge. rewrite plus_INR in Hge.
    replace (INR 3) with 3 in Hge by (simpl; lra). lra.
  - destruct (Nat.le_gt_cases k2 (k1 + 2)) as [H|H]; [exact H|].
    assert (Hge : (k1 + 3 <= k2)%nat) by lia.
    apply le_INR in Hge. rewrite plus_INR in Hge.
    replace (INR 3) with 3 in Hge by (simpl; lra). lra.
Qed.

Lemma X8_witness :
  Rabs (Eye.x_object (eye (run_steps steered_source 0))
        - Eye.x (eye (run_steps steered_source 0)) - x_neuron_of 10) < 3 / 19.
Proof.
  assert (Hin : In 10%nat (retina_spikes (run_steps steered_source 0)))
    by (apply spiked_In; exact pursuit_unit10_spikes).
  exact (proj1 (X8_retinal_spikes_are_local steered_source 0 10 10
                  (fun i _ => steered_rand_unit i) Hin Hin)).
Defined.

(** X9: a unit that stays within 3/50 of the target (relative to the eye)
    for 150 consecutive ticks (15 ms) spikes during those ticks: its drive is
    then at least 2.4, and each tick without spike raises its potential by
    at least 7/1005. *)
Theorem X9_unit_under_target_fires (rs : RandomSource) (n k : nat) :
  (forall i : nat, (i < N)%nat -> 0 <= rand rs i < 1) ->
  (k < N)%nat ->
  (forall u : nat, (u < 150)%nat ->
     Rabs (Eye.x_object (eye (run_steps rs (n + u)))
           - Eye.x (eye (run_steps rs (n + u))) - x_neuron_of k) <= 3 / 50) ->
  exists u : nat, (u < 150)%nat /\ In k (retina_spikes (run_steps rs (n + u))).
Proof.
  intros Hrand Hk Hnear.
  assert (Hrand' : forall i : nat, (i < N)%nat -> 0 <= rand rs i <= 1).
  { intros i Hi. specialize (Hrand i Hi). lra. }
  assert (Hrange : forall t, 0 <= retina_v (run_steps rs t) k <= 1)
    by (intros t; apply (potentials_run rs t Hrand'); exact Hk).
  assert (Hgrow : forall u : nat, (u <= 150)%nat ->
            (exists u' : nat, (u' < u)%nat /\
               In k (retina_spikes (run_steps rs (n + u')))) \/
            INR u * (7 / 1005) <= retina_v (run_steps rs (n + u)) k).
  { induction u as [|u IH]; intros Hu.
    - right. simpl INR. destruct (Hrange (n + 0)%nat). lra.
    - destruct (IH ltac:(lia)) as [(u' & Hu' & Hin) | Hlow].
      + left. exists u'. split; [lia | exact Hin].
      + destruct (spiked (retina_spikes (run_steps rs (n + u))) k) eqn:Hs.
        * left. exists u. split; [lia | apply spiked_In; exact Hs].
        * right.
          replace (n + S u)%nat with (S (n + u)) by lia. simpl run_steps.
          pose proof (well_formed_run rs (n + u)) as Hwf.
          rewrite retina_v_step, Hs by assumption.
          unfold retina_v_updated.
          pose proof (I_drive_near _ _ _ (Hnear u ltac:(lia))) as HI.
          fold (drive (run_steps rs (n + u)) k) in HI.
          destruct (Hrange (n + u)%nat) as [_ Hle].
          pose proof decay_bounds as [_ Hd]. pose proof decay_pos.
          rewrite S_INR. nra. }
  destruct (Hgrow 150%nat ltac:(lia)) as [(u & Hu & Hin) | Hlow].
  - exists u. split; assumption.
  - exfalso. destruct (Hrange (n + 150)%nat) as [_ Hle].
    replace (INR 150) with 150 in Hlow by (simpl; lra). lra.
Qed.

(** In the run without stochastic drive the target stays over unit 10
    (1/19 from the centre), which therefore spikes: zero drive silences the
    motoneurons, not the retina. *)
Lemma X9_witness :
  exists u : nat,
    (u < 150)%nat /\ In 10%nat (retina_spikes (run_steps zero_source (0 + u))).
Proof.
  assert (Hrand : forall i : nat, (i < N)%nat -> 0 <= rand zero_source i < 1).
  { intros i _. cbn [rand zero_source]. lra. }
  assert (Hk : (10 < N)%nat) by (unfold N; lia).
  assert (Hnear : forall u : nat, (u < 150)%nat ->
     Rabs (Eye.x_object (eye (run_steps zero_source (0 + u)))
           - Eye.x (eye (run_steps zero_source (0 + u))) - x_neuron_of 10)
     <= 3 / 50).
  { intros u _.
    rewrite (quiescent_run_eye zero_source) by reflexivity.
    cbn [Eye.x_object Eye.x].
    rewrite (proj1 x_neuron_hot), Rabs_left by lra. lra. }
  exact (X9_unit_under_target_fires zero_source 0 10 Hrand Hk Hnear).
Defined.

(** ** Refractoriness bookkeeping *)

(** X10: lastspike is the tick of the most recent spike.  After n ticks,
    lastspike of motoneuron j is either its initial value, and j has not
    spiked at any tick before n, or a tick t < n at which j spiked, and j
    has not spiked at any tick between t and n. *)
Theorem X10_lastspike_is_latest (rs : RandomSource) (n j : nat) :
  (j < 2)%nat ->
  (moto_lastspike (run_steps rs n) j = never_spiked /\
   forall t : nat, (t < n)%nat -> ~ In j (moto_spikes (run_steps rs t))) \/
  (exists t : nat,
     (t < n)%nat /\ moto_lastspike (run_steps rs n) j = Z.of_nat t /\
     In j (moto_spikes (run_steps rs t)) /\
     forall t' : nat, (t < t' < n)%nat ->
       ~ In j (moto_spikes (run_steps rs t'))).
Proof.
  intros Hj. induction n as [|n IH].
  - left. split; [|intros t Ht; lia].
    unfold moto_lastspike.
    cbn [run_steps network_init motoneurons motoneurons_init Moto.lastspike].
    destruct j as [|[|j]]; [reflexivity | reflexivity | lia].
  - simpl run_steps.
    rewrite moto_lastspike_step, clock_run by (try apply well_formed_run; exact Hj).
    destruct (spiked (moto_spikes (run_steps rs n)) j) eqn:Hs.
    + right. exists n. split; [lia|]. split; [reflexivity|].
      split; [apply spiked_In; exact Hs | intros t' Ht'; lia].
    + assert (Hno : ~ In j (moto_spikes (run_steps rs n))).
      { intros Hin. apply spiked_In in Hin. congruence. }
      destruct IH as [[Hls Hnone] | (t & Ht & Hls & Hin & Hnone)].
      * left. split; [exact Hls|]. intros t Ht.
        destruct (Nat.eq_dec t n) as [->|Hne]; [exact Hno | apply Hnone; lia].
      * right. exists t. split; [lia|]. split; [exact Hls|].
        split; [exact Hin|]. intros t' Ht'.
        destruct (Nat.eq_dec t' n) as [->|Hne]; [exact Hno | apply Hnone; lia].
Qed.

Lemma X10_witness :
  (moto_lastspike (run_steps steered_source 8) 1 = never_spiked /\
   forall t : nat, (t < 8)%nat ->
     ~ In 1%nat (moto_spikes (run_steps steered_source t))) \/
  (exists t : nat,
     (t < 8)%nat /\
     moto_lastspike (run_steps steered_source 8) 1 = Z.of_nat t /\
     In 1%nat (moto_spikes (run_steps steered_source t)) /\
     forall t' : nat, (t < t' < 8)%nat ->
       ~ In 1%nat (moto_spikes (run_steps steered_source t'))).
Proof.
  assert (H1 : (1 < 2)%nat) by lia.
  exact (X10_lastspike_is_latest steered_source 8 1 H1).
Defined.

(** ** Symmetry of the wiring *)

(** X11: the retina is laid out and wired symmetrically.  Positions
    increase strictly with the index, by 2/19 per unit; unit N-1-k is the
    mirror image of unit k (opposite position), its synapse has the same
    weight and goes to the other motoneuron. *)
Theorem X11_mirror_symmetry (rs : RandomSource) (k : nat) :
  (k < N)%nat ->
  x_neuron_of (N - 1 - k) = - x_neuron_of k /\
  x_neuron_of (S k) - x_neuron_of k = 2 / 19 /\
  (forall k' : nat, (k < k')%nat -> x_neuron_of k < x_neuron_of k') /\
  forall s s' : Synapse,
    In s (synapses_from k (sensorimotor_synapses (network_init rs))) ->
    In s' (synapses_from (N - 1 - k)
             (sensorimotor_synapses (network_init rs))) ->
    w s' = w s /\ (post s + post s' = 1)%nat.
Proof.
  intros Hk.
  assert (Hmir : x_neuron_of (N - 1 - k) = - x_neuron_of k).
  { rewrite !x_neuron_of_val, minus_INR by lia.
    rewrite N_pred_INR. lra. }
  split; [exact Hmir|]. split; [|split].
  - rewrite !x_neuron_of_val, S_INR. lra.
  - intros k' Hlt. rewrite !x_neuron_of_val.
    apply lt_INR in Hlt. lra.
  - intros s s' Hs Hs'.
    rewrite synapses_from_init in Hs, Hs'.
    destruct (Nat.ltb_spec k N); [|lia].
    destruct (Nat.ltb_spec (N - 1 - k) N); [|lia].
    destruct Hs as [<-|[]]. destruct Hs' as [<-|[]]. cbn [w post].
    rewrite !weight_of_val, Hmir, Rabs_Ropp. split; [reflexivity|].
    destruct (Nat.le_gt_cases k 9) as [H9|H9].
    + rewrite (target_of_neg (x_neuron_of k))
        by (left; apply x_neuron_of_neg; exact H9).
      rewrite target_of_pos; [reflexivity|].
      pose proof (x_neuron_of_neg k H9). lra.
    + rewrite (target_of_pos (x_neuron_of k))
        by (apply x_neuron_of_pos; lia).
      rewrite target_of_neg; [reflexivity|].
      pose proof (x_neuron_of_pos k ltac:(lia)). lra.
Qed.

Lemma X11_witness :
  x_neuron_of (N - 1 - 3) = - x_neuron_of 3.
Proof.
  apply (X11_mirror_symmetry zero_source 3). unfold N. lia.
Defined.

(** ** Bounds on the eye *)

Lemma x0_step (z : R) (s : Network) :
  well_formed s ->
  Eye.x0 (eye (step z s))
  = Eye.x0 (eye s) - Eye.x0 (eye s) / 200
    + ((if spiked (moto_spikes s) 0 then - (1 / 2) else 0)
       + (if spiked (moto_spikes s) 1 then 1 / 2 else 0)).
Proof.
  intros Hwf. rewrite eye_step by exact Hwf. cbv zeta. cbn [Eye.x0].
  unfold x0_relaxed, muscle_input, dt, tau_muscle, ms. lra.
Qed.

Lemma refractory_age_step (z : R) (s : Network) (j : nat) :
  well_formed s -> (j < 2)%nat ->
  (moto_lastspike s j <= Z.of_nat (clock s))%Z ->
  (moto_lastspike (step z s) j <= Z.of_nat (clock (step z s)))%Z /\
  (0 <= refractory_age s j <= 50)%Z /\
  if spiked (moto_spikes s) j
  then refractory_age s j = 50%Z /\ refractory_age (step z s) j = 1%Z
  else (refractory_age (step z s) j <= refractory_age s j + 1)%Z.
Proof.
  intros Hwf Hj Hls. unfold refractory_age.
  rewrite moto_lastspike_step by assumption.
  replace (clock (step z s)) with (S (clock s)) by reflexivity.
  unfold refractory_steps.
  destruct (spiked (moto_spikes s) j) eqn:Hs.
  - rewrite moto_spikes_spec in Hs by exact Hwf.
    apply andb_true_iff in Hs as [_ Hs].
    apply andb_true_iff in Hs as [_ Hs].
    apply Z.leb_le in Hs. unfold refractory_steps in Hs. lia.
  - lia.
Qed.

(** Invariant behind the bound on x0: a spike of the right motoneuron adds
    1/2 only when 50 ticks of relaxation have passed since the previous
    one. *)
Lemma x0_invariant (rs : RandomSource) (n : nat) :
  let s := run_steps rs n in
  (forall j : nat, (j < 2)%nat ->
     (moto_lastspike s j <= Z.of_nat (clock s))%Z) /\
  Eye.x0 (eye s) <= 5 / 2 - IZR (refractory_age s 1) / 100 /\
  - (5 / 2 - IZR (refractory_age s 0) / 100) <= Eye.x0 (eye s).
Proof.
  induction n as [|n (IHls & IHhi & IHlo)].
  - cbv zeta. split; [|split].
    + intros j Hj. unfold moto_lastspike.
      cbn [run_steps network_init motoneurons motoneurons_init
           Moto.lastspike clock].
      destruct j as [|[|j]]; [| |lia]; cbn [repeat nth];
        unfold never_spiked; lia.
    + cbn [run_steps network_init eye eye_init Eye.x0].
      replace (refractory_age (network_init rs) 1) with 50%Z by reflexivity.
      lra.
    + cbn [run_steps network_init eye eye_init Eye.x0].
      replace (refractory_age (network_init rs) 0) with 50%Z by reflexivity.
      lra.
  - cbv zeta in *. simpl run_steps.
    set (s := run_steps rs n) in *. set (z := randn rs n).
    pose proof (well_formed_run rs n) as Hwf. fold s in Hwf.
    pose proof (refractory_age_step z s 0 Hwf ltac:(lia) (IHls 0%nat ltac:(lia)))
      as (Hls0 & Hr0 & Hc0).
    pose proof (refractory_age_step z s 1 Hwf ltac:(lia) (IHls 1%nat ltac:(lia)))
      as (Hls1 & Hr1 & Hc1).
    split.
    { intros j Hj. destruct j as [|[|j]]; [exact Hls0 | exact Hls1 | lia]. }
    rewrite x0_step by exact Hwf.
    set (a0 := refractory_age s 0) in *. set (a1 := refractory_age s 1) in *.
    set (b0 := refractory_age (step z s) 0) in *.
    set (b1 := refractory_age (step z s) 1) in *.
    assert (Ha0 : 0 <= IZR a0 <= 50)
      by (split; [apply (IZR_le 0) | apply (IZR_le a0 50)]; lia).
    assert (Ha1 : 0 <= IZR a1 <= 50)
      by (split; [apply (IZR_le 0) | apply (IZR_le a1 50)]; lia).
    assert (Hb0 : if spiked (moto_spikes s) 0
                  then IZR a0 = 50 /\ IZR b0 = 1
                  else IZR b0 <= IZR a0 + 1).
    { destruct (spiked (moto_spikes s) 0).
      - destruct Hc0 as [-> ->]. split; reflexivity.
      - apply IZR_le in Hc0. rewrite plus_IZR in Hc0. exact Hc0. }
    assert (Hb1 : if spiked (moto_spikes s) 1
                  then IZR a1 = 50 /\ IZR b1 = 1
                  else IZR b1 <= IZR a1 + 1).
    { destruct (spiked (moto_spikes s) 1).
      - destruct Hc1 as [-> ->]. split; reflexivity.
      - apply IZR_le in Hc1. rewrite plus_IZR in Hc1. exact Hc1. }
    assert (Hb0' : IZR b0 <= 50).
    { apply (IZR_le b0 50). unfold b0, refractory_age, refractory_steps. lia. }
    assert (Hb1' : IZR b1 <= 50).
    { apply (IZR_le b1 50). unfold b1, refractory_age, refractory_steps. lia. }
    destruct (Rle_dec (Eye.x0 (eye s)) 2) as [Hx2|Hx2];
      destruct (Rle_dec (-2) (Eye.x0 (eye s))) as [Hxm|Hxm];
      destruct (spiked (moto_spikes s) 0), (spiked (moto_spikes s) 1);
      split; lra.
Qed.

(** X12: the muscle bias x0 is bounded.  At every tick of every run
    -2.5 <= x0 <= 2.5; moreover x0 <= 2 whenever the right motoneuron is out
    of its refractory period (and x0 >= -2 whenever the left one is), which
    is the only time a spike can raise (lower) it. *)
Theorem X12_muscle_bias_bounded (rs : RandomSource) (n : nat) :
  let s := run_steps rs n in
  - (5 / 2) <= Eye.x0 (eye s) <= 5 / 2 /\
  ((refractory_steps <= Z.of_nat n - moto_lastspike s 1)%Z ->
   Eye.x0 (eye s) <= 2) /\
  ((refractory_steps <= Z.of_nat n - moto_lastspike s 0)%Z ->
   - 2 <= Eye.x0 (eye s)).
Proof.
  intros s. destruct (x0_invariant rs n) as (Hls & Hhi & Hlo).
  fold s in Hls, Hhi, Hlo.
  assert (Hclock : clock s = n) by apply clock_run.
  assert (Hage : forall j, (j < 2)%nat ->
            0 <= IZR (refractory_age s j) <= 50 /\
            ((refractory_steps <= Z.of_nat n - moto_lastspike s j)%Z ->
             IZR (refractory_age s j) = 50)).
  { intros j Hj. specialize (Hls j Hj).
    unfold refractory_age, refractory_steps in *. rewrite Hclock in *.
    split; [split; [apply (IZR_le 0) | apply (IZR_le _ 50)]; lia|].
    intros Hnr. f_equal. lia. }
  destruct (Hage 0%nat ltac:(lia)) as [H0 H0'].
  destruct (Hage 1%nat ltac:(lia)) as [H1 H1'].
  split; [lra|]. split; intros Hnr.
  - rewrite (H1' Hnr) in Hhi. lra.
  - rewrite (H0' Hnr) in Hlo. lra.
Qed.

Lemma X12_witness :
  Eye.x0 (eye (run_steps steered_source 3)) <= 2.
Proof.
  apply (proj1 (proj2 (X12_muscle_bias_bounded steered_source 3))).
  exact (proj2 pursuit_tick3_ready).
Defined.

Lemma eye_energy_step (x v u : R) :
  x ^ 2 + x * (v / 20) + (v / 20) ^ 2 <= 27 -> - (5 / 2) <= u <= 5 / 2 ->
  (x + dt * v) ^ 2
  + (x + dt * v) * ((v + dt * (alpha * (u - x) - beta * v)) / 20)
  + ((v + dt * (alpha * (u - x) - beta * v)) / 20) ^ 2 <= 27.
Proof.
  intros HV Hu. destruct alpha_beta_val as [-> ->]. unfold dt.
  set (y := v / 20) in *.
  replace v with (20 * y) by (unfold y; field).
  assert (Hexp :
    (x + / 10000 * (20 * y)) ^ 2
    + (x + / 10000 * (20 * y))
      * ((20 * y + / 10000 * (400 * (u - x) - 20 * (20 * y))) / 20)
    + ((20 * y + / 10000 * (400 * (u - x) - 20 * (20 * y))) / 20) ^ 2
    = (x ^ 2 + x * y + y ^ 2)
      + / 500 * (- (x ^ 2 + x * y + y ^ 2) + (x + 2 * y) * u)
      + / 250000 * (y ^ 2 + y * (u - x - y) + (u - x - y) ^ 2)) by field.
  rewrite Hexp.
  assert (H1 : (x + 2 * y) * u <= (x ^ 2 + x * y + y ^ 2) / 2 + 2 * u ^ 2).
  { pose proof (pow2_ge_0 (x + 2 * y - 4 * u)). pose proof (pow2_ge_0 x).
    lra. }
  assert (H2 : y ^ 2 + y * (u - x - y) + (u - x - y) ^ 2
               <= 12 * (x ^ 2 + x * y + y ^ 2) + 9 / 2 * u ^ 2).
  { pose proof (pow2_ge_0 (x + y)). pose proof (pow2_ge_0 (x - y)).
    pose proof (pow2_ge_0 (x + 2 * u)). pose proof (pow2_ge_0 (y + 2 * u)).
    pose proof (pow2_ge_0 (y - 2 * u)). pose proof (pow2_ge_0 (x - 2 * u)).
    pose proof (pow2_ge_0 x). pose proof (pow2_ge_0 y).
    pose proof (pow2_ge_0 u). nra. }
  assert (H3 : u ^ 2 <= 25 / 4) by nra.
  lra.
Qed.

(** X13: the eye stays in a bounded region although the equations do not
    clamp it.  The energy x^2 + x*w + w^2 (w = velocity/20) never exceeds
    27, hence -6 <= x <= 6 and -120 <= velocity <= 120 at every tick of
    every run. *)
Theorem X13_eye_bounded (rs : RandomSource) (n : nat) :
  let e := eye (run_steps rs n) in
  eye_energy e <= 27 /\
  - 6 <= Eye.x e <= 6 /\ - 120 <= Eye.velocity e <= 120.
Proof.
  intros e.
  assert (HV : eye_energy e <= 27).
  { unfold e. clear e. induction n as [|n IH].
    - unfold eye_energy.
      cbn [run_steps network_init eye eye_init Eye.x Eye.velocity]. lra.
    - simpl run_steps. rewrite eye_step by apply well_formed_run.
      cbv zeta. unfold eye_energy in *. cbn [Eye.x Eye.velocity].
      apply eye_energy_step; [exact IH|].
      destruct (x0_invariant rs n) as (Hls & Hhi & Hlo).
      cbv zeta in Hls, Hhi, Hlo.
      assert (Hage : forall j, (j < 2)%nat ->
                0 <= IZR (refractory_age (run_steps rs n) j)).
      { intros j Hj. specialize (Hls j Hj). apply (IZR_le 0).
        unfold refractory_age, refractory_steps. lia. }
      pose proof (Hage 0%nat ltac:(lia)). pose proof (Hage 1%nat ltac:(lia)).
      lra. }
  split; [exact HV|]. unfold eye_energy in HV.
  set (x := Eye.x e) in *. set (y := Eye.velocity e / 20) in *.
  assert (Hx : x ^ 2 <= 36).
  { pose proof (pow2_ge_0 (x / 2 + y)). nra. }
  assert (Hy : y ^ 2 <= 36).
  { pose proof (pow2_ge_0 (x + y / 2)). nra. }
  assert (Hv : Eye.velocity e = 20 * y) by (unfold y; field).
  rewrite Hv. split; split; nra.
Qed.

(** ** A bound on the motoneuron potentials *)

Lemma sum_list_le (f g : nat -> R) (l : list nat) :
  (forall k : nat, In k l -> f k <= g k) ->
  sum_list (map f l) <= sum_list (map g l).
Proof.
  induction l as [|k l IH]; intros H; cbn [map sum_list fold_right]; [lra|].
  fold (sum_list (map f l)). fold (sum_list (map g l)).
  pose proof (H k (or_introl eq_refl)).
  pose proof (IH (fun k' Hk' => H k' (or_intror Hk'))). lra.
Qed.

Lemma sum_list_linear (f g : nat -> R) (a b : R) (l : list nat) :
  sum_list (map (fun k => a * f k + b * g k) l)
  = a * sum_list (map f l) + b * sum_list (map g l).
Proof.
  induction l as [|k l IH]; cbn [map sum_list fold_right]; [lra|].
  fold (sum_list (map (fun k => a * f k + b * g k) l)).
  fold (sum_list (map f l)). fold (sum_list (map g l)).
  rewrite IH. lra.
Qed.

Lemma sum_list_scale (f : nat -> R) (a : R) (l : list nat) :
  sum_list (map (fun k => a * f k) l) = a * sum_list (map f l).
Proof.
  induction l as [|k l IH]; cbn [map sum_list fold_right]; [lra|].
  fold (sum_list (map (fun k => a * f k) l)). fold (sum_list (map f l)).
  rewrite IH. lra.
Qed.

Lemma syn_input_sum (spikes : list nat) (j : nat) :
  syn_input spikes sensorimotor_table j
  = sum_list (map (syn_term spikes j) (seq 0 N)).
Proof.
  unfold sensorimotor_table.
  induction (seq 0 N) as [|k l IH]; [reflexivity|].
  cbn [map syn_input sum_list fold_right pre post w].
  fold (sum_list (map (syn_term spikes j) l)).
  fold (syn_input spikes
          (map (fun i => mkSynapse i (target_of (x_neuron_of i))
                           (weight_of N (x_neuron_of i))) l) j).
  rewrite IH. reflexivity.
Qed.

Lemma side_term_linear (j k : nat) (a b r1 r2 : R) :
  side_term j k (a * r1 + b * r2)
  = a * side_term j k r1 + b * side_term j k r2.
Proof.
  unfold side_term.
  destruct (target_of (x_neuron_of k) =? j)%nat; lra.
Qed.

Lemma side_term_mono (j k : nat) (r1 r2 : R) :
  (k < N)%nat -> r1 <= r2 -> side_term j k r1 <= side_term j k r2.
Proof.
  intros Hk Hr. unfold side_term. pose proof (weight_of_bounds k Hk).
  destruct (target_of (x_neuron_of k) =? j)%nat; nra.
Qed.

Lemma side_term_one (j k : nat) :
  (k < N)%nat ->
  side_term j k 1
  = if (k <=? 9)%nat
    then (if (j =? 0)%nat then (19 - 2 * INR k) / 19 else 0)
    else (if (j =? 1)%nat then (2 * INR k - 19) / 19 else 0).
Proof.
  intros Hk. unfold side_term.
  rewrite weight_of_val, x_neuron_of_val.
  destruct (Nat.leb_spec k 9) as [H|H].
  - rewrite target_of_neg
      by (rewrite <- x_neuron_of_val; left; apply x_neuron_of_neg; exact H).
    apply le_INR in H. replace (INR 9) with 9 in H by (simpl; lra).
    rewrite (Nat.eqb_sym 0 j).
    destruct (j =? 0)%nat; [|reflexivity].
    rewrite Rabs_left by lra. lra.
  - rewrite target_of_pos
      by (rewrite <- x_neuron_of_val; apply x_neuron_of_pos; lia).
    assert (H10 : (10 <= k)%nat) by lia.
    apply le_INR in H10. replace (INR 10) with 10 in H10 by (simpl; lra).
    rewrite (Nat.eqb_sym 1 j).
    destruct (j =? 1)%nat; [|reflexivity].
    rewrite Rabs_right by lra. lra.
Qed.

(** Each motoneuron receives total weight 100/19 from its ten units. *)
Lemma side_weight (j : nat) :
  (j < 2)%nat -> side_sum j (fun _ => 1) = 100 / 19.
Proof.
  intros Hj. unfold side_sum.
  rewrite (map_ext_in _
             (fun k => if (k <=? 9)%nat
                       then (if (j =? 0)%nat then (19 - 2 * INR k) / 19 else 0)
                       else (if (j =? 1)%nat then (2 * INR k - 19) / 19
                             else 0)))
    by (intros k Hk; apply in_seq in Hk; apply side_term_one; lia).
  assert (Hj' : j = 0%nat \/ j = 1%nat) by lia.
  destruct Hj' as [-> | ->];
    cbn [N seq map sum_list fold_right Nat.leb Nat.eqb]; simpl INR; lra.
Qed.

(** The potential of motoneuron j plus the weighted potentials of the
    retinal units wired to it never exceeds four times the total weight. *)
Lemma moto_potential_invariant (rs : RandomSource) (n j : nat) :
  (forall i : nat, (i < N)%nat -> 0 <= rand rs i < 1) ->
  (j < 2)%nat ->
  let s := run_steps rs n in
  0 <= side_sum j (retina_v s) /\
  moto_v s j + side_sum j (retina_v s) <= 4 * (100 / 19).
Proof.
  intros Hrand Hj.
  assert (Hrand' : forall i : nat, (i < N)%nat -> 0 <= rand rs i <= 1).
  { intros i Hi. specialize (Hrand i Hi). lra. }
  assert (Hpos : forall t, 0 <= side_sum j (retina_v (run_steps rs t))).
  { intros t. unfold side_sum.
    replace 0 with (sum_list (map (fun _ : nat => 0) (seq 0 N))).
    - apply sum_list_le. intros k Hk. apply in_seq in Hk.
      destruct (potentials_run rs t Hrand') as [Hr _].
      replace 0 with (side_term j k 0) at 1
        by (unfold side_term;
            destruct (target_of (x_neuron_of k) =? j)%nat; lra).
      apply side_term_mono; [lia | apply Hr; lia].
    - induction (seq 0 N) as [|k l IH]; [reflexivity|].
      cbn [map sum_list fold_right]. fold (sum_list (map (fun _ : nat => 0) l)).
      rewrite IH. lra. }
  cbv zeta. split; [apply Hpos|].
  pose proof (side_weight j Hj) as HW.
  induction n as [|n IH].
  - cbn [run_steps]. rewrite moto_v_init.
    assert (Hle : side_sum j (retina_v (network_init rs))
                  <= side_sum j (fun _ => 1)).
    { unfold side_sum. apply sum_list_le. intros k Hk. apply in_seq in Hk.
      apply side_term_mono; [lia|].
      rewrite retina_v_init by lia. apply Hrand'. lia. }
    lra.
  - simpl run_steps. set (s := run_steps rs n) in *. set (z := randn rs n).
    pose proof (well_formed_run rs n) as Hwf. fold s in Hwf.
    pose proof decay_bounds as [Hd1 Hd2]. pose proof decay_pos as Hd0.
    destruct (potentials_run rs n Hrand') as [Hr Hm]. fold s in Hr, Hm.
    pose proof (Hm j Hj) as Hm0.
    pose proof (syn_input_nonneg (retina_spikes s) j) as Hin0.
    assert (Hmoto : moto_v (step z s) j
                    <= moto_v s j * decay
                       + syn_input (retina_spikes s) sensorimotor_table j).
    { rewrite moto_v_step by assumption.
      destruct (spiked (moto_spikes s) j); nra. }
    assert (Hsum : syn_input (retina_spikes s) sensorimotor_table j
                   + side_sum j (retina_v (step z s))
                   <= (1 - decay) * (4 * side_sum j (fun _ => 1))
                      + decay * side_sum j (retina_v s)).
    { rewrite syn_input_sum. unfold side_sum.
      set (l := seq 0 N).
      set (syn := syn_term (retina_spikes s) j).
      set (st' := fun k => side_term j k (retina_v (step z s) k)).
      set (st := fun k => side_term j k (retina_v s k)).
      set (st1 := fun k => side_term j k 1).
      assert (E1 : sum_list (map syn l) + sum_list (map st' l)
                   = sum_list (map (fun k => 1 * syn k + 1 * st' k) l))
        by (rewrite sum_list_linear; lra).
      assert (E2 : (1 - decay) * (4 * sum_list (map st1 l))
                   + decay * sum_list (map st l)
                   = sum_list (map (fun k => (1 - decay) * (4 * st1 k)
                                             + decay * st k) l)).
      { rewrite (sum_list_linear (fun k => 4 * st1 k) st).
        rewrite (sum_list_scale st1 4). reflexivity. }
      rewrite E1, E2. unfold l, syn, st', st, st1.
      apply sum_list_le. intros k Hk. apply in_seq in Hk.
      assert (Hkn : (k < N)%nat) by lia.
      rewrite retina_v_step by assumption.
      pose proof (weight_of_bounds k Hkn) as Hw.
      pose proof (I_drive_pos (Eye.x_object (eye s)) (Eye.x (eye s))
                    (x_neuron_of k)) as HI0.
      pose proof (I_drive_le_gain (Eye.x_object (eye s)) (Eye.x (eye s))
                    (x_neuron_of k)) as HI4.
      fold (drive s k) in HI0, HI4. unfold gain in HI4.
      destruct (Hr k Hkn) as [Hr0 Hr1].
      unfold syn_term, side_term.
      destruct (spiked (retina_spikes s) k) eqn:Hs.
      - rewrite retina_spikes_spec in Hs by exact Hwf.
        destruct (Nat.ltb_spec k N); [|lia]. cbn [andb] in Hs.
        apply Rgtb_true in Hs. unfold retina_v_updated in Hs.
        assert (Hup : 1 <= 4 * (1 - decay) + retina_v s k * decay) by nra.
        destruct (target_of (x_neuron_of k) =? j)%nat; cbn [andb]; nra.
      - unfold retina_v_updated.
        assert (Hup : drive s k + (retina_v s k - drive s k) * decay
                      <= 4 * (1 - decay) + retina_v s k * decay) by nra.
        destruct (target_of (x_neuron_of k) =? j)%nat; cbn [andb]; nra. }
    rewrite HW in Hsum. nra.
Qed.

(** X14: motoneuron potentials are bounded, though not by 1.  In every run
    that starts with retinal potentials in [0, 1), every motoneuron
    potential stays at or below 400/19 (four times the total weight 100/19
    of the ten units wired to the motoneuron), at every tick. *)
Theorem X14_motoneuron_potential_bounded (rs : RandomSource) (n j : nat) :
  (forall i : nat, (i < N)%nat -> 0 <= rand rs i < 1) ->
  (j < 2)%nat ->
  side_sum j (fun _ => 1) = 100 / 19 /\
  0 <= moto_v (run_steps rs n) j <= 400 / 19.
Proof.
  intros Hrand Hj.
  destruct (moto_potential_invariant rs n j Hrand Hj) as [Hpos Hinv].
  cbv zeta in Hpos, Hinv.
  assert (Hrand' : forall i : nat, (i < N)%nat -> 0 <= rand rs i <= 1).
  { intros i Hi. specialize (Hrand i Hi). lra. }
  destruct (potentials_run rs n Hrand') as [_ Hm].
  split; [apply side_weight; exact Hj|].
  pose proof (Hm j Hj). lra.
Qed.

Lemma X14_witness :
  1 < moto_v (run_steps steered_source 8) 1 /\
  moto_v (run_steps steered_source 8) 1 <= 400 / 19.
Proof.
  assert (H1 : (1 < 2)%nat) by lia.
  split; [exact pursuit_above_threshold|].
  apply (X14_motoneuron_potential_bounded steered_source 8 1
           (fun i _ => steered_rand_unit i) H1).
Defined.
